(** * carbon-clickhouse: the RowBinary stream reader and the metric-path reversal

    A shallow embedding of [helper/RowBinary/reader/reader.go] (the typed
    reads over an [io.Reader]) and of the reference reversal of the test file
    of package [RowBinary], with the properties of both; then of the pure
    parts of the end-to-end test driver [cmd/e2e-test/e2etesting.go]
    ([InputType] and the comparison of [verifyOut]).

    Conventions.
    - Go's [int] and [uint64] are 64 bits wide; both are modelled as [Z], with
      the wrap-around of [uint64] written out ([u64]).
    - A byte is a [Byte.byte]; a [[]byte] and a [string] are [list byte].
      A nil slice and an empty slice are both [[]].
    - A Go function returning [(T, error)] returns a [result T]: either both
      values ([Return v err], [err = None] for a nil error) or a run-time
      panic.
    - [io.Reader] is an interface: it is a type class over the state of the
      byte source. *)

From Stdlib Require Import ZArith Lia.
From Stdlib Require Import Strings.Byte.
From stdpp Require Import base list numbers.

Local Open Scope Z_scope.

(** ** Errors, results and the byte source *)

(** The error values the reader can return: [io.EOF], the package's own
    [ErrUvarintOverflow], and whatever else the wrapped source reports. *)
Inductive error : Type :=
  | io_EOF
  | ErrUvarintOverflow
  | SourceError (code : nat).

(** The run-time panics of the Go code in scope. *)
Inductive panic : Type :=
  | SliceBoundsOutOfRange
  | IndexOutOfRange
  | MakesliceLenOutOfRange.

Inductive result (A : Type) : Type :=
  | Return (v : A) (err : option error)
  | Panic (p : panic).
Arguments Return {A} v err.
Arguments Panic {A} p.

(** [io.Reader]: [Read(p)] on a source in state [s] with [len(p) = n] gives
    the bytes stored at the front of [p] (their number is Go's [n]), the error
    and the next state of the source. The interface contract
    [0 <= n <= len(p)] is a law of the class. *)
Class IOReader (Src : Type) : Type := {
  io_Read : Src -> nat -> list byte * option error * Src;
  io_Read_len : forall s n, (length (io_Read s n).1.1 <= n)%nat
}.

(** An in-memory source in the manner of [bytes.Reader]: as many bytes as
    asked for and left; [io.EOF] once nothing is left. *)
Definition BytesReader : Type := list byte.

Definition BytesReader_Read (s : BytesReader) (n : nat)
  : list byte * option error * BytesReader :=
  match s with
  | [] => ([], Some io_EOF, [])
  | _ :: _ => (take n s, None, drop n s)
  end.

#[export] Program Instance BytesReader_IOReader : IOReader BytesReader :=
  {| io_Read := BytesReader_Read |}.
Next Obligation.
  intros s n. destruct s as [|b s]; simpl; [lia|].
  rewrite length_take. simpl. lia.
Qed.

(** A source that delivers its data in chunks, as a network connection does:
    one [Read] returns bytes of the first pending chunk only. *)
Definition ChunkReader : Type := list (list byte).

Definition ChunkReader_Read (s : ChunkReader) (n : nat)
  : list byte * option error * ChunkReader :=
  match s with
  | [] => ([], Some io_EOF, [])
  | c :: rest =>
      (take n c, None, if (length c <=? n)%nat then rest else drop n c :: rest)
  end.

#[export] Program Instance ChunkReader_IOReader : IOReader ChunkReader :=
  {| io_Read := ChunkReader_Read |}.
Next Obligation.
  intros s n. destruct s as [|c s]; simpl; [lia|].
  rewrite length_take. lia.
Qed.

(** A source that fails: every [Read] reports the same error and no byte. *)
Inductive FailingReader : Type := Failing (code : nat).

#[export] Program Instance FailingReader_IOReader : IOReader FailingReader :=
  {| io_Read := fun s _ =>
       match s with Failing c => ([], Some (SourceError c), s) end |}.
Next Obligation. intros [c] n. simpl. lia. Qed.

(** ** Machine integers *)

Definition byte_val (b : byte) : Z := Z.of_N (Byte.to_N b).

(** Wrap-around of [uint64]. *)
Definition u64 (z : Z) : Z := z mod 2 ^ 64.

(** The conversion [int(u)] of a [uint64] on a 64-bit platform. *)
Definition int_of_uint64 (u : Z) : Z :=
  if u <? 2 ^ 63 then u else u - 2 ^ 64.

(** Wrap-around of [int64]. *)
Definition i64 (z : Z) : Z := (z + 2 ^ 63) mod 2 ^ 64 - 2 ^ 63.

Definition SIZE_INT8 : Z := 1.
Definition SIZE_INT16 : Z := 2.
Definition SIZE_INT32 : Z := 4.
Definition SIZE_INT64 : Z := 8.

(** ** The reader *)

(** [binary.LittleEndian.Uint16/32/64] of [encoding/binary]: each starts with
    a bounds check of its last index ([None] is the index panic); every shifted
    byte stays within the width of the result. *)
Definition LittleEndian_Uint16 (b : list byte) : option Z :=
  match b with
  | b0 :: b1 :: _ =>
      Some (Z.lor (byte_val b0) (Z.shiftl (byte_val b1) 8))
  | _ => None
  end.

Definition LittleEndian_Uint32 (b : list byte) : option Z :=
  match b with
  | b0 :: b1 :: b2 :: b3 :: _ =>
      Some (Z.lor (Z.lor (Z.lor (byte_val b0) (Z.shiftl (byte_val b1) 8))
                         (Z.shiftl (byte_val b2) 16))
                  (Z.shiftl (byte_val b3) 24))
  | _ => None
  end.

Definition LittleEndian_Uint64 (b : list byte) : option Z :=
  match b with
  | b0 :: b1 :: b2 :: b3 :: b4 :: b5 :: b6 :: b7 :: _ =>
      Some (Z.lor (Z.lor (Z.lor (Z.lor (Z.lor (Z.lor (Z.lor
              (byte_val b0) (Z.shiftl (byte_val b1) 8))
              (Z.shiftl (byte_val b2) 16)) (Z.shiftl (byte_val b3) 24))
              (Z.shiftl (byte_val b4) 32)) (Z.shiftl (byte_val b5) 40))
              (Z.shiftl (byte_val b6) 48)) (Z.shiftl (byte_val b7) 56))
  | _ => None
  end.

(** A [float64] is kept as its IEEE-754 bit pattern. *)
Inductive float64 : Type := Float64frombits (bits : Z).

(** ** Time

    A [time.Time] as the reader builds it: seconds and nanoseconds since the
    Unix epoch and a location. *)
Inductive Location : Type := UTC | Local.

Record Time : Type := mkTime {
  unix_sec : Z;
  unix_nsec : Z;
  location : Location
}.

(** [time.Unix(sec, nsec)]: a local time, [nsec] brought into [0, 1e9). *)
Definition time_Unix (sec nsec : Z) : Time :=
  mkTime (sec + nsec / 1000000000) (nsec mod 1000000000) Local.

(** [t.UTC()] *)
Definition Time_UTC (t : Time) : Time :=
  mkTime (unix_sec t) (unix_nsec t) UTC.

(** [func DateUint16(n uint16) time.Time] *)
Definition DateUint16 (n : Z) : Time :=
  Time_UTC (time_Unix (i64 (n * 86400)) 0).

(** The civil date of the day [days] days after 1970-01-01, proleptic
    Gregorian calendar: what [t.Date()] shows for a time in UTC. *)
Definition civil_from_days (days : Z) : Z * Z * Z :=
  let z := days + 719468 in
  let era := z / 146097 in
  let doe := z - era * 146097 in
  let yoe := (doe - doe / 1460 + doe / 36524 - doe / 146096) / 365 in
  let doy := doe - (365 * yoe + yoe / 4 - yoe / 100) in
  let mp := (5 * doy + 2) / 153 in
  let d := doy - (153 * mp + 2) / 5 + 1 in
  let m := if mp <? 10 then mp + 3 else mp - 9 in
  let y := yoe + era * 400 + (if m <=? 2 then 1 else 0) in
  (y, m, d).

(** [t.Date()] and [t.Clock()] of a time whose location is UTC. *)
Definition Time_Date (t : Time) : Z * Z * Z :=
  civil_from_days (unix_sec t / 86400).

Definition Time_Clock (t : Time) : Z * Z * Z :=
  let s := unix_sec t mod 86400 in
  (s / 3600, s mod 3600 / 60, s mod 60).

Record Reader (Src : Type) : Type := mkReader {
  wrapped : Src;
  buf : list byte
}.
Arguments mkReader {Src} wrapped buf.
Arguments wrapped {Src} r.
Arguments buf {Src} r.

(** [make([]byte, 65536)]: the scratch buffer, all zero at first. *)
Definition BUF_SIZE : Z := 65536.

Definition NewReader {Src : Type} (rdr : Src) : Reader Src :=
  mkReader rdr (replicate (Z.to_nat BUF_SIZE) x00).

(** [cap(r.buf)]; the buffer is never re-sliced, so it is also its length. *)
Definition cap_buf {Src : Type} (r : Reader Src) : Z := Z.of_nat (length (buf r)).

(** The invariant of a reader made by [NewReader]: the scratch buffer keeps
    its 65536 bytes. *)
Definition wf_reader {Src : Type} (r : Reader Src) : Prop :=
  cap_buf r = BUF_SIZE.

(** The index expression [buf[0]] of [ReadUint8] as a conversion. *)
Definition first_byte (b : list byte) : option Z := byte_val <$> b !! 0%nat.

Section Reading.
Context {Src : Type} `{IOReader Src}.

(** [r.wrapped.Read(r.buf[lo:lo+n])]: the bytes the source gives are
    stored in the buffer from [lo] on. *)
Definition wrapped_Read (r : Reader Src) (lo : Z) (n : nat)
  : list byte * option error * Reader Src :=
  let '(data, err, src') := io_Read (wrapped r) n in
  (data, err, mkReader src' (list_inserts (Z.to_nat lo) data (buf r))).

(** [func (r *Reader) read(want int) ([]byte, error)] *)
Definition read (r : Reader Src) (want : Z) : result (list byte) * Reader Src :=
  if (want <? 0) || (cap_buf r <? want) then (Panic SliceBoundsOutOfRange, r)
  else
    let '(data, err, r') := wrapped_Read r 0 (Z.to_nat want) in
    match err with
    | Some e => (Return [] (Some e), r')
    | None =>
        if Z.of_nat (length data) <? want then (Return [] (Some io_EOF), r')
        else (Return (take (Z.to_nat want) (buf r')) None, r')
    end.

(** The loop of [ReadUvarint], [for i := 0; ; i++]. Its first statement
    returns once [i >= SIZE_INT64], so the body runs for
    [i = 0 .. SIZE_INT64 - 1] only: [k] is [SIZE_INT64 - i], the number of
    iterations left before that guard fires. *)
Fixpoint ReadUvarint_loop (k : nat) (i x s : Z) (r : Reader Src)
  : result Z * Reader Src :=
  match k with
  | O => (* i >= SIZE_INT64 *) (Return 0 (Some ErrUvarintOverflow), r)
  | S k' =>
      if (i <? 0) || (cap_buf r <? i + 1) then (Panic SliceBoundsOutOfRange, r)
      else
        let '(data, err, r') := wrapped_Read r i 1 in
        match err with
        | Some e => (Return 0 (Some e), r')
        | None =>
            if negb (Z.of_nat (length data) =? 1) then (Return 0 (Some io_EOF), r')
            else
              match buf r' !! Z.to_nat i with
              | None => (Panic IndexOutOfRange, r')
              | Some b =>
                  if byte_val b <? 0x80 then
                    if (9 <? i) || ((i =? 9) && (1 <? byte_val b))
                    then (Return 0 (Some ErrUvarintOverflow), r')
                    else (Return (Z.lor x (u64 (Z.shiftl (byte_val b) s))) None, r')
                  else
                    ReadUvarint_loop k' (i + 1)
                      (Z.lor x (u64 (Z.shiftl (Z.land (byte_val b) 0x7f) s)))
                      (s + 7) r'
              end
        end
  end.

(** [func (r *Reader) ReadUvarint() (uint64, error)] *)
Definition ReadUvarint (r : Reader Src) : result Z * Reader Src :=
  ReadUvarint_loop (Z.to_nat SIZE_INT64) 0 0 0 r.

(** [func (r *Reader) ReadUint8() (uint8, error)] *)
Definition ReadUint8 (r : Reader Src) : result Z * Reader Src :=
  match read r SIZE_INT8 with
  | (Panic p, r') => (Panic p, r')
  | (Return _ (Some e), r') => (Return 0 (Some e), r')
  | (Return b None, r') =>
      match b !! 0%nat with
      | Some b0 => (Return (byte_val b0) None, r')
      | None => (Panic IndexOutOfRange, r')
      end
  end.

(** The shape shared by [ReadUint16], [ReadUint32] and [ReadUint64]:
    [read(size)], then the little-endian conversion of the bytes. *)
Definition read_fixed (size : Z) (conv : list byte -> option Z)
    (r : Reader Src) : result Z * Reader Src :=
  match read r size with
  | (Panic p, r') => (Panic p, r')
  | (Return _ (Some e), r') => (Return 0 (Some e), r')
  | (Return b None, r') =>
      match conv b with
      | Some v => (Return v None, r')
      | None => (Panic IndexOutOfRange, r')
      end
  end.

(** [func (r *Reader) ReadUint16() (uint16, error)] *)
Definition ReadUint16 : Reader Src -> result Z * Reader Src :=
  read_fixed SIZE_INT16 LittleEndian_Uint16.

(** [func (r *Reader) ReadUint32() (uint32, error)] *)
Definition ReadUint32 : Reader Src -> result Z * Reader Src :=
  read_fixed SIZE_INT32 LittleEndian_Uint32.

(** [func (r *Reader) ReadUint64() (uint64, error)] *)
Definition ReadUint64 : Reader Src -> result Z * Reader Src :=
  read_fixed SIZE_INT64 LittleEndian_Uint64.

(** [func (r *Reader) ReadFloat64() (float64, error)] *)
Definition ReadFloat64 (r : Reader Src) : result float64 * Reader Src :=
  match read r SIZE_INT64 with
  | (Panic p, r') => (Panic p, r')
  | (Return _ (Some e), r') => (Return (Float64frombits 0) (Some e), r')
  | (Return b None, r') =>
      match LittleEndian_Uint64 b with
      | Some v => (Return (Float64frombits v) None, r')
      | None => (Panic IndexOutOfRange, r')
      end
  end.

(** [func (r *Reader) ReadStringBytes() ([]byte, error)] *)
Definition ReadStringBytes (r : Reader Src) : result (list byte) * Reader Src :=
  match ReadUvarint r with
  | (Panic p, r') => (Panic p, r')
  | (Return _ (Some e), r') => (Return [] (Some e), r')
  | (Return u None, r') =>
      if u =? 0 then (Return [] None, r')
      else
        match read r' (int_of_uint64 u) with
        | (Panic p, r'') => (Panic p, r'')
        | (Return _ (Some e), r'') => (Return [] (Some e), r'')
        | (Return b None, r'') => (Return b None, r'')
        end
  end.

(** [func (r *Reader) ReadString() (string, error)]; [string(buf)] copies
    the bytes out of the scratch buffer. *)
Definition ReadString (r : Reader Src) : result (list byte) * Reader Src :=
  match ReadStringBytes r with
  | (Panic p, r') => (Panic p, r')
  | (Return _ (Some e), r') => (Return [] (Some e), r')
  | (Return b None, r') => (Return b None, r')
  end.

(** [func (r *Reader) ReadDate() (time.Time, error)] *)
Definition ReadDate (r : Reader Src) : result Time * Reader Src :=
  match ReadUint16 r with
  | (Panic p, r') => (Panic p, r')
  | (Return _ (Some e), r') => (Return (time_Unix 0 0) (Some e), r')
  | (Return t None, r') => (Return (DateUint16 t) None, r')
  end.

(** The loop of [ReadStringList], [for i := 0; i < n; i++]: [k] is
    [n - i], the number of iterations left. The assignment
    [sList[i], err = r.ReadString()] stores the string also when the read
    fails (it is then the empty string). *)
Fixpoint ReadStringList_loop (k : nat) (i : Z) (sList : list (list byte))
    (r : Reader Src) : result (list (list byte)) * Reader Src :=
  match k with
  | O => (Return sList None, r)
  | S k' =>
      match ReadString r with
      | (Panic p, r') => (Panic p, r')
      | (Return s err, r') =>
          let sList' := <[Z.to_nat i := s]> sList in
          match err with
          | Some e => (Return sList' (Some e), r')
          | None => ReadStringList_loop k' (i + 1) sList' r'
          end
      end
  end.

(** [func (r *Reader) ReadStringList() ([]string, error)]. The allocation
    [make([]string, n)] is taken to succeed for every [n >= 0]: running out
    of memory is outside the model. *)
Definition ReadStringList (r : Reader Src)
  : result (list (list byte)) * Reader Src :=
  match ReadUvarint r with
  | (Panic p, r') => (Panic p, r')
  | (Return _ (Some e), r') => (Return [] (Some e), r')
  | (Return u None, r') =>
      if u =? 0 then (Return [] None, r')
      else
        let n := int_of_uint64 u in
        if n <? 0 then (Panic MakesliceLenOutOfRange, r')
        else
          ReadStringList_loop (Z.to_nat n) 0 (replicate (Z.to_nat n) []) r'
  end.

(** The four unsigned reads with the number of bytes each asks for. *)
Definition uint_reads : list (Z * (Reader Src -> result Z * Reader Src)) :=
  [ (SIZE_INT8, ReadUint8); (SIZE_INT16, ReadUint16);
    (SIZE_INT32, ReadUint32); (SIZE_INT64, ReadUint64) ].


End Reading.

(** The value of the bytes [b0 b1 ...] read as a little-endian number,
    [b0 + b1 * 2^8 + b2 * 2^16 + ...]. *)
Fixpoint le_sum (l : list byte) : Z :=
  match l with
  | [] => 0
  | b :: t => byte_val b + 2 ^ 8 * le_sum t
  end.

(** ** Varints: outcomes and the encoder *)

(** What [ReadUvarint] can give on a reader whose buffer has its full size:
    never a panic; with an error, the value 0; without, a value below
    [2^56], because at most eight groups of seven bits are gathered. *)
Definition uvarint_outcome (res : result Z) : Prop :=
  match res with
  | Panic _ => False
  | Return u (Some _) => u = 0
  | Return u None => 0 <= u < 2 ^ 56
  end.

(** A byte with the continuation bit. *)
Definition continues (b : byte) : Prop := (byte_val b <? 0x80) = false.

(** The byte with the value [z mod 256] (Go's conversion [byte(x)]). *)
Definition byte_of_Z (z : Z) : byte :=
  match Byte.of_N (Z.to_N (z mod 256)) with
  | Some b => b
  | None => x00
  end.

(** The standard base-128 varint encoder, as the spec words it and as
    [binary.PutUvarint] of [encoding/binary] has it: seven bits per byte, the
    least significant group first, the high bit set on every byte but the
    last.
    [for x >= 0x80 { buf[i] = byte(x) | 0x80; x >>= 7; i++ }; buf[i] = byte(x)].
    A [uint64] takes at most nine turns of the loop, which is the fuel. *)
Fixpoint PutUvarint_loop (fuel : nat) (x : Z) : list byte :=
  match fuel with
  | O => [byte_of_Z x]
  | S fuel' =>
      if 0x80 <=? x
      then byte_of_Z (Z.lor (byte_val (byte_of_Z x)) 0x80)
             :: PutUvarint_loop fuel' (Z.shiftr x 7)
      else [byte_of_Z x]
  end.

Definition PutUvarint (x : Z) : list byte := PutUvarint_loop 9 x.

(** ** Reversal of a metric path (package [RowBinary]) *)

Local Close Scope Z_scope.

(** The separator of a metric path, the byte ['.']. *)
Definition DOT : byte := "."%byte.

Definition is_dot (c : byte) : bool := Byte.eqb c DOT.

(** A piece holds no separator. *)
Definition dotless (s : list byte) : Prop :=
  Forall (fun c => is_dot c = false) s.

(** [bytes.Split(s, []byte{'.'})]: the pieces of [s] between the separators,
    empty pieces kept; a slice without a separator is one piece. *)
Fixpoint bytes_Split (s : list byte) : list (list byte) :=
  match s with
  | [] => [[]]
  | c :: t =>
      if is_dot c then [] :: bytes_Split t
      else
        match bytes_Split t with
        | piece :: pieces => (c :: piece) :: pieces
        | [] => [[c]]
        end
  end.

(** [bytes.Join(a, []byte{'.'})] *)
Fixpoint bytes_Join (a : list (list byte)) : list byte :=
  match a with
  | [] => []
  | [piece] => piece
  | piece :: rest => piece ++ DOT :: bytes_Join rest
  end.

(** The assignment [a[i], a[j] = a[j], a[i]]. Both indices are in range
    wherever it is used below; out of range the slice is left as it is. *)
Definition swap {A : Type} (a : list A) (i j : nat) : list A :=
  match a !! i, a !! j with
  | Some x, Some y => <[j := x]> (<[i := y]> a)
  | _, _ => a
  end.

(** The loop of [reverseBytesOriginal],
    [for i := 0; i < l/2; i++ { a[i], a[l-i-1] = a[l-i-1], a[i] }];
    [k] is [l/2 - i], the number of iterations left. *)
Fixpoint reverseBytesOriginal_loop {A : Type} (k i l : nat) (a : list A)
  : list A :=
  match k with
  | O => a
  | S k' => reverseBytesOriginal_loop k' (i + 1) l (swap a i (l - i - 1))
  end.

(** [func reverseBytesOriginal(target []byte) []byte], the reference of the
    package's tests. *)
Definition reverseBytesOriginal (target : list byte) : list byte :=
  let a := bytes_Split target in
  let l := length a in
  bytes_Join (reverseBytesOriginal_loop (l / 2) 0 l a).

(** Modelled from the spec: the swap loop of the in-place reversal, whose
    code is not among the sources. Reversal of the span [a[lo:hi]] by two
    indices moving towards each other,
    [for i, j := lo, hi-1; i < j; i, j = i+1, j-1]. *)
Fixpoint reverse_span_loop {A : Type} (k i j : nat) (a : list A) : list A :=
  match k with
  | O => a
  | S k' => reverse_span_loop k' (i + 1) (j - 1) (swap a i j)
  end.

(** Modelled from the spec: the in-place reversal of one span, [k] being the
    number of swaps, half the length of the span. *)
Definition reverse_span {A : Type} (a : list A) (lo hi : nat) : list A :=
  reverse_span_loop ((hi - lo) / 2) lo (hi - 1) a.

(** Modelled from the spec: the second pass of the in-place reversal, whose
    code is not among the sources. Every span between two separators is
    reversed where it stands. [i] scans the buffer, [start] is the first
    index of the span being scanned, [k] the number of bytes left. *)
Fixpoint ReverseMetricInplace_loop (k i start : nat) (target : list byte)
  : list byte :=
  match k with
  | O => reverse_span target start i
  | S k' =>
      match target !! i with
      | Some c =>
          if is_dot c
          then ReverseMetricInplace_loop k' (i + 1) (i + 1)
                 (reverse_span target start i)
          else ReverseMetricInplace_loop k' (i + 1) start target
      | None => target
      end
  end.

(** Modelled from the spec: [ReverseMetricInplace] (the spec's
    [ReverseInPlace]) is not among the sources; only its tests are. The spec
    asks for an in-place swap algorithm over delimiter-bounded spans with a
    fixed amount of working space, and an output of the same length whose
    segments are those of the input in reverse order. The model is the
    classic one with that profile: the whole buffer is reversed by swaps,
    then every span between separators is reversed back. The result is the
    content of the buffer after the call. *)
Definition ReverseMetricInplace (target : list byte) : list byte :=
  let l := length target in
  ReverseMetricInplace_loop l 0 0 (reverse_span target 0 l).

(** Modelled from the spec: the scan of [ReverseBytesTo], whose code is not
    among the sources. [i] scans the source, [start] is the first
    index of the segment being scanned, [pos] the end of the part of the
    destination not written yet, [k] the number of source bytes left. A
    segment closed by a separator is copied, after a separator, to the end of
    that part. *)
Fixpoint ReverseBytesTo_loop (k i start pos : nat) (source target : list byte)
  : list byte :=
  match k with
  | O => list_inserts 0 (drop start source) target
  | S k' =>
      match source !! i with
      | Some c =>
          if is_dot c then
            let seg := take (i - start) (drop start source) in
            let pos' := pos - (i - start) - 1 in
            ReverseBytesTo_loop k' (i + 1) (i + 1) pos' source
              (<[pos' := c]> (list_inserts (pos' + 1) seg target))
          else ReverseBytesTo_loop k' (i + 1) start pos source target
      | None => target
      end
  end.

(** Modelled from the spec: [ReverseBytesTo] (the spec's [ReverseTo]) is not
    among the sources; only its tests are. The spec asks that the reversed
    form of the source be written into the first [len(source)] bytes of the
    destination, the source left as it is. The model scans the source once
    and copies each segment to its place counted from the end. The result is
    the content of the destination after the call. *)
Definition ReverseBytesTo (target source : list byte) : list byte :=
  let l := length source in
  ReverseBytesTo_loop l 0 0 l source target.

Local Open Scope Z_scope.

(** ** Running the reader on concrete streams *)


(** Two bytes that arrive one at a time. *)
Definition chunks_1_2 : ChunkReader := [[x01]; [x02]].

(** The day count 1, little-endian. *)
Definition stream_day_1 : BytesReader := [x01; x00].

(** The length prefix 65537 (one above the buffer) and two bytes. *)
Definition stream_oversize : BytesReader := [x81; x80; x04; x01; x02].

(** The count 3, then the strings [a] and [b], then nothing. *)
Definition stream_list_cut : BytesReader :=
  [x03; x01; "a"; x01; "b"]%byte.



(** The path [carbon..xx] of the package's tests. *)
Definition path_carbon_xx : list byte :=
  ["c"; "a"; "r"; "b"; "o"; "n"; "."; "."; "x"; "x"]%byte.

(** ** Streams laid out for the reader *)

(** The value a varint stands for: seven bits a byte, the least significant
    group first, [sum (b_i & 0x7f) * 128^i]. *)
Fixpoint uvarint_value (bs : list byte) : Z :=
  match bs with
  | [] => 0
  | b :: t => Z.land (byte_val b) 0x7f + 128 * uvarint_value t
  end.

(** The layout [ReadString] and [ReadStringBytes] read: the length of the
    string as a varint, then its bytes. *)
Definition encode_string (s : list byte) : list byte :=
  PutUvarint (Z.of_nat (length s)) ++ s.


(** A source that reports [io.EOF] together with the last bytes it has, as
    the contract of [io.Reader] allows: a [Read] that takes all that is left
    returns these bytes and the error at once. *)
Inductive EagerEOFReader : Type := EagerEOF (pending : list byte).

Definition EagerEOFReader_Read (s : EagerEOFReader) (n : nat)
  : list byte * option error * EagerEOFReader :=
  match s with
  | EagerEOF l =>
      if (length l <=? n)%nat then (l, Some io_EOF, EagerEOF [])
      else (take n l, None, EagerEOF (drop n l))
  end.

#[export] Program Instance EagerEOFReader_IOReader : IOReader EagerEOFReader :=
  {| io_Read := EagerEOFReader_Read |}.
Next Obligation.
  intros [l] n. unfold EagerEOFReader_Read.
  destruct (length l <=? n)%nat eqn:Hle; simpl.
  - apply Nat.leb_le in Hle. exact Hle.
  - rewrite length_take. lia.
Qed.

(** ** Streams met in the properties below *)

(** The string [ab] with its length before it, then the string [c]. *)
Definition stream_ab_c : BytesReader := [x02; "a"; "b"; x01; "c"]%byte.

(** Two bytes, the last ones of a source that reports [io.EOF] with them. *)
Definition stream_eager_1_2 : EagerEOFReader := EagerEOF [x01; x02].

(** * The end-to-end test driver (package [main], [cmd/e2e-test])

    Go strings are kept as their bytes. *)

Definition NL : byte := x0a.
Definition TAB : byte := x09.
Definition SPACE : byte := " "%byte.

(** [s == t] on strings. *)
Fixpoint string_eqb (s t : list byte) : bool :=
  match s, t with
  | [], [] => true
  | a :: s', b :: t' => Byte.eqb a b && string_eqb s' t'
  | _, _ => false
  end.

(** [strings.TrimRight(s, cutset)] for a cutset of the one ASCII byte [c]:
    the bytes [c] at the end of [s] are cut off. *)
Fixpoint strings_TrimRight (s : list byte) (c : byte) : list byte :=
  match s with
  | [] => []
  | b :: t =>
      match strings_TrimRight t c with
      | [] => if Byte.eqb b c then [] else [b]
      | t' => b :: t'
      end
  end.

(** [strings.ReplaceAll(s, old, new)] for [old] and [new] of one byte. *)
Definition strings_ReplaceAll (s : list byte) (old new : byte) : list byte :=
  (fun b => if Byte.eqb b old then new else b) <$> s.

(** [strings.Split(s, sep)] for a separator of one byte: the pieces of [s]
    between the separators, empty pieces kept; the empty string is one
    (empty) piece. *)
Fixpoint strings_Split (s : list byte) (sep : byte) : list (list byte) :=
  match s with
  | [] => [[]]
  | c :: t =>
      if Byte.eqb c sep then [] :: strings_Split t sep
      else
        match strings_Split t sep with
        | piece :: pieces => (c :: piece) :: pieces
        | [] => [[c]]
        end
  end.

(** The digits of a decimal number, as [%d] prints them. *)
Fixpoint uint_digits (d : Decimal.uint) : list byte :=
  match d with
  | Decimal.Nil => []
  | Decimal.D0 d => "0"%byte :: uint_digits d
  | Decimal.D1 d => "1"%byte :: uint_digits d
  | Decimal.D2 d => "2"%byte :: uint_digits d
  | Decimal.D3 d => "3"%byte :: uint_digits d
  | Decimal.D4 d => "4"%byte :: uint_digits d
  | Decimal.D5 d => "5"%byte :: uint_digits d
  | Decimal.D6 d => "6"%byte :: uint_digits d
  | Decimal.D7 d => "7"%byte :: uint_digits d
  | Decimal.D8 d => "8"%byte :: uint_digits d
  | Decimal.D9 d => "9"%byte :: uint_digits d
  end.

(** [fmt.Sprintf("- [%d]: %s", i, s)] and [fmt.Sprintf("+ [%d]: %s", i, s)]
    for an index [i >= 0], [sign] being the first byte. *)
Definition Sprintf_line (sign : byte) (i : nat) (s : list byte) : list byte :=
  [sign; " "; "["]%byte ++ uint_digits (Nat.to_uint i) ++ ["]"; ":"; " "]%byte
  ++ s.

(** [type InputType int] with its one constant [InputPlainTCP]. *)
Definition InputType : Type := Z.
Definition InputPlainTCP : InputType := 0.

(** [var inputStrings []string = []string{"tcp_plain"}] *)
Definition inputStrings : list (list byte) :=
  [["t"; "c"; "p"; "_"; "p"; "l"; "a"; "i"; "n"]%byte].

(** [func (a *InputType) String() string]; [None] is the panic of the index
    expression [inputStrings[*a]] out of range. *)
Definition InputType_String (a : InputType) : option (list byte) :=
  if a <? 0 then None else inputStrings !! Z.to_nat a.

(** The text of the error [fmt.Errorf("invalid input type %s", value)]. *)
Definition invalid_input_type (value : list byte) : list byte :=
  ["i"; "n"; "v"; "a"; "l"; "i"; "d"; " "; "i"; "n"; "p"; "u"; "t"; " ";
   "t"; "y"; "p"; "e"; " "]%byte ++ value.

(** [func (a *InputType) Set(value string) error]: the receiver after the
    call and the error, [None] for [nil]. *)
Definition InputType_Set (a : InputType) (value : list byte)
  : InputType * option (list byte) :=
  if string_eqb value ["p"; "l"; "a"; "i"; "n"; "_"; "t"; "c"; "p"]%byte
  then (InputPlainTCP, None)
  else (a, Some (invalid_input_type value)).

(** [func (a *InputType) UnmarshalText(text []byte) error] *)
Definition InputType_UnmarshalText (a : InputType) (text : list byte)
  : InputType * option (list byte) :=
  InputType_Set a text.

(** [type Verify struct] *)
Record Verify : Type := mkVerify {
  Query : list byte;
  Output : list (list byte)
}.

(** What the HTTP exchange at the start of [verifyOut] comes to: the error
    of [client.Do], the error of [ioutil.ReadAll], or a response with its
    status code, its status line and its body. The texts are those of
    [err.Error()]. *)
Inductive http_exchange : Type :=
  | DoError (msg : list byte)
  | ReadAllError (msg : list byte)
  | Response (StatusCode : Z) (Status : list byte) (body : list byte).

(** The loop of [verifyOut] (lines 125-135),
    [for i := 0; i < maxLen; i++]; [k] is [maxLen - i], the number of
    iterations left. [None] is the panic of an index out of range. *)
Fixpoint verifyOut_loop (k i : nat) (ss output errs : list (list byte))
  : option (list (list byte)) :=
  match k with
  | O => Some errs
  | S k' =>
      if (length ss <=? i)%nat then
        match output !! i with
        | Some o =>
            verifyOut_loop k' (S i) ss output
              (errs ++ [Sprintf_line "-" i o])
        | None => None
        end
      else if (length output <=? i)%nat then
        match ss !! i with
        | Some s =>
            verifyOut_loop k' (S i) ss output
              (errs ++ [Sprintf_line "+" i s])
        | None => None
        end
      else
        match ss !! i, output !! i with
        | Some s, Some o =>
            if negb (string_eqb s o)
            then verifyOut_loop k' (S i) ss output
                   ((errs ++ [Sprintf_line "-" i o]) ++ [Sprintf_line "+" i s])
            else verifyOut_loop k' (S i) ss output errs
        | _, _ => None
        end
  end.

(** The lines [verifyOut] compares with the expected ones: the body without
    the newlines at its end, every tab made a space, cut at the newlines; a
    body that comes to nothing has no line. *)
Definition response_lines (body : list byte) : list (list byte) :=
  let s := strings_TrimRight body NL in
  let s := strings_ReplaceAll s TAB SPACE in
  let ss := strings_Split s NL in
  match ss with
  | [s0] => if (length s0 =? 0)%nat then [] else ss
  | _ => ss
  end.

Section VerifyOut.
(** [tests.Max] of [helper/tests], which is not among the sources. *)
Variable tests_Max : Z -> Z -> Z.

(** [func verifyOut(address string, verify Verify) []string] (lines 96-136)
    from the outcome of its HTTP exchange on. *)
Definition verifyOut (exchange : http_exchange) (verify : Verify)
  : option (list (list byte)) :=
  match exchange with
  | DoError msg => Some [msg]
  | ReadAllError msg => Some [msg]
  | Response StatusCode Status body =>
      let s := strings_TrimRight body NL in
      if negb (StatusCode =? 200) then
        Some [["r"; "e"; "s"; "p"; "o"; "n"; "s"; "e"; " "; "s"; "t"; "a";
               "t"; "u"; "s"; " "; "i"; "s"; " "; "'"]%byte
              ++ Status ++ ["'"; ","; " "]%byte ++ s]
      else
        let s := strings_ReplaceAll s TAB SPACE in
        let ss := strings_Split s NL in
        let ss :=
          match ss with
          | [s0] => if (length s0 =? 0)%nat then [] else ss
          | _ => ss
          end in
        let maxLen :=
          tests_Max (Z.of_nat (length ss)) (Z.of_nat (length (Output verify))) in
        verifyOut_loop (Z.to_nat maxLen) 0 ss (Output verify) []
  end.

End VerifyOut.


(** * Properties *)

(** ** The reversal of a metric path *)

Local Close Scope Z_scope.

Section Reversal.

Lemma swap_middle {A : Type} (pre mid post : list A) (x y : A) :
  swap (pre ++ x :: mid ++ y :: post) (length pre) (length pre + S (length mid))
  = pre ++ y :: mid ++ x :: post.
Proof.
  unfold swap.
  rewrite list_lookup_middle by reflexivity.
  replace (pre ++ x :: mid ++ y :: post) with ((pre ++ x :: mid) ++ y :: post)
    by (rewrite <- app_assoc; reflexivity).
  rewrite list_lookup_middle by (rewrite length_app; simpl; lia).
  rewrite <- app_assoc. simpl.
  rewrite <- (Nat.add_0_r (length pre)) at 2.
  rewrite insert_app_r. simpl.
  rewrite insert_app_r. simpl.
  f_equal. f_equal.
  replace (length mid) with (length mid + 0) by lia.
  rewrite insert_app_r. reflexivity.
Qed.

Lemma div2_SS (n : nat) : S (S n) / 2 = S (n / 2).
Proof.
  replace (S (S n)) with (n + 1 * 2) by lia.
  rewrite Nat.div_add by lia. lia.
Qed.

Lemma reverse_span_loop_spec {A : Type} (k : nat) :
  forall (pre mid post : list A),
    k = length mid / 2 ->
    reverse_span_loop k (length pre) (length pre + length mid - 1)
      (pre ++ mid ++ post)
    = pre ++ reverse mid ++ post.
Proof.
  induction k as [|k IH]; intros pre mid post Hk.
  - simpl. destruct mid as [|x [|y mid]]; try reflexivity.
    rewrite !length_cons, div2_SS in Hk. discriminate.
  - destruct mid as [|x mid]; [discriminate|].
    destruct mid as [|y mid _] using rev_ind; [discriminate|].
    rewrite length_cons, length_app in Hk. simpl length in Hk.
    replace (S (length mid + 1)) with (S (S (length mid))) in Hk by lia.
    rewrite div2_SS in Hk.
    replace (length pre + length (x :: mid ++ [y]) - 1)
      with (length pre + S (length mid))
      by (rewrite length_cons, length_app; simpl; lia).
    replace (pre ++ (x :: mid ++ [y]) ++ post)
      with (pre ++ x :: mid ++ y :: post)
      by (simpl; rewrite <- app_assoc; reflexivity).
    cbn [reverse_span_loop].
    rewrite swap_middle.
    specialize (IH (pre ++ [y]) mid (x :: post)).
    rewrite length_app in IH. simpl in IH.
    replace (length pre + S (length mid) - 1)
      with (length pre + 1 + length mid - 1) by lia.
    replace (pre ++ y :: mid ++ x :: post)
      with ((pre ++ [y]) ++ mid ++ x :: post)
      by (rewrite <- app_assoc; reflexivity).
    rewrite IH by (injection Hk; auto).
    rewrite reverse_cons, reverse_app, reverse_singleton.
    rewrite <- !app_assoc. reflexivity.
Qed.

Lemma reverse_span_spec {A : Type} (pre mid post : list A) :
  reverse_span (pre ++ mid ++ post) (length pre) (length pre + length mid)
  = pre ++ reverse mid ++ post.
Proof.
  unfold reverse_span.
  replace (length pre + length mid - length pre) with (length mid) by lia.
  apply reverse_span_loop_spec. reflexivity.
Qed.

Lemma reverse_span_whole {A : Type} (a : list A) :
  reverse_span a 0 (length a) = reverse a.
Proof.
  pose proof (reverse_span_spec [] a []) as H.
  simpl in H. rewrite !app_nil_r in H. exact H.
Qed.

Lemma reverseBytesOriginal_loop_two_index {A : Type} (k : nat) :
  forall (i l : nat) (a : list A),
    reverseBytesOriginal_loop k i l a = reverse_span_loop k i (l - i - 1) a.
Proof.
  induction k as [|k IH]; intros i l a; simpl; [reflexivity|].
  rewrite IH. f_equal. lia.
Qed.

Lemma reverseBytesOriginal_loop_reverse {A : Type} (a : list A) :
  reverseBytesOriginal_loop (length a / 2) 0 (length a) a = reverse a.
Proof.
  rewrite reverseBytesOriginal_loop_two_index.
  pose proof (reverse_span_loop_spec (length a / 2) [] a [] eq_refl) as H.
  simpl in H. rewrite !app_nil_r in H.
  replace (length a - 0 - 1) with (length a - 1) by lia. exact H.
Qed.

(** The reference, without its loop. *)
Lemma reverseBytesOriginal_eq (target : list byte) :
  reverseBytesOriginal target = bytes_Join (reverse (bytes_Split target)).
Proof.
  unfold reverseBytesOriginal. rewrite reverseBytesOriginal_loop_reverse.
  reflexivity.
Qed.

Lemma is_dot_true (c : byte) : is_dot c = true -> c = DOT.
Proof. apply Byte.byte_dec_bl. Qed.

Lemma is_dot_DOT : is_dot DOT = true.
Proof. reflexivity. Qed.

Lemma bytes_Split_nonempty (s : list byte) : bytes_Split s <> [].
Proof.
  destruct s as [|c s]; simpl; [discriminate|].
  destruct (is_dot c); [discriminate|].
  destruct (bytes_Split s); discriminate.
Qed.

Lemma bytes_Split_dotless (s : list byte) : Forall dotless (bytes_Split s).
Proof.
  induction s as [|c s IH]; simpl.
  - repeat constructor.
  - destruct (is_dot c) eqn:Hc.
    + constructor; [constructor | exact IH].
    + destruct (bytes_Split s) as [|piece pieces].
      * repeat constructor. exact Hc.
      * inversion IH; subst. constructor; [constructor|]; assumption.
Qed.

Lemma bytes_Join_cons (s : list byte) (ss : list (list byte)) :
  ss <> [] -> bytes_Join (s :: ss) = s ++ DOT :: bytes_Join ss.
Proof. destruct ss; [congruence | reflexivity]. Qed.

Lemma bytes_Join_Split (s : list byte) : bytes_Join (bytes_Split s) = s.
Proof.
  induction s as [|c s IH]; simpl; [reflexivity|].
  destruct (is_dot c) eqn:Hc.
  - rewrite bytes_Join_cons by apply bytes_Split_nonempty.
    rewrite IH. apply is_dot_true in Hc. subst c. reflexivity.
  - pose proof (bytes_Split_nonempty s) as Hne.
    destruct (bytes_Split s) as [|piece pieces]; [congruence|].
    destruct pieces as [|p2 pieces]; simpl in *; rewrite <- IH; reflexivity.
Qed.

Lemma bytes_Split_dotless_id (cur : list byte) :
  dotless cur -> bytes_Split cur = [cur].
Proof.
  induction 1 as [|c cur Hc _ IH]; simpl; [reflexivity|].
  rewrite Hc, IH. reflexivity.
Qed.

Lemma bytes_Split_app_dot (cur rest : list byte) :
  dotless cur ->
  bytes_Split (cur ++ DOT :: rest) = cur :: bytes_Split rest.
Proof.
  induction 1 as [|c cur Hc _ IH]; simpl.
  - reflexivity.
  - rewrite Hc, IH. reflexivity.
Qed.

Lemma bytes_Split_app_sep (cur rest : list byte) (c : byte) :
  dotless cur -> is_dot c = true ->
  bytes_Split (cur ++ c :: rest) = cur :: bytes_Split rest.
Proof.
  intros Hcur Hc. apply is_dot_true in Hc. subst c.
  apply bytes_Split_app_dot. exact Hcur.
Qed.

Lemma bytes_Split_Join (ss : list (list byte)) :
  ss <> [] -> Forall dotless ss -> bytes_Split (bytes_Join ss) = ss.
Proof.
  induction ss as [|s ss IH]; intros Hne Hall; [congruence|].
  inversion Hall as [|? ? Hs Hss]; subst.
  destruct ss as [|s' ss].
  - simpl. apply bytes_Split_dotless_id. exact Hs.
  - rewrite bytes_Join_cons by discriminate.
    rewrite bytes_Split_app_dot by exact Hs.
    rewrite IH; [reflexivity | discriminate | exact Hss].
Qed.

Lemma bytes_Join_snoc (ss : list (list byte)) (s : list byte) :
  ss <> [] -> bytes_Join (ss ++ [s]) = bytes_Join ss ++ DOT :: s.
Proof.
  induction ss as [|s0 ss IH]; intros Hne; [congruence|].
  destruct ss as [|s1 ss].
  - reflexivity.
  - change ((s0 :: s1 :: ss) ++ [s]) with (s0 :: ((s1 :: ss) ++ [s])).
    rewrite bytes_Join_cons by (simpl; discriminate).
    rewrite IH by discriminate.
    rewrite (bytes_Join_cons s0 (s1 :: ss)) by discriminate.
    rewrite <- app_assoc. reflexivity.
Qed.

Lemma reverse_nonempty {A : Type} (l : list A) : l <> [] -> reverse l <> [].
Proof.
  intros Hne Hrev. apply Hne.
  rewrite <- (reverse_involutive l), Hrev. reflexivity.
Qed.

Lemma reverse_bytes_Join (ss : list (list byte)) :
  reverse (bytes_Join ss) = bytes_Join (reverse (reverse <$> ss)).
Proof.
  induction ss as [|s ss IH]; [reflexivity|].
  destruct ss as [|s' ss].
  - reflexivity.
  - rewrite bytes_Join_cons by discriminate.
    rewrite reverse_app, reverse_cons, IH.
    rewrite (fmap_cons reverse s (s' :: ss)).
    rewrite (reverse_cons (reverse <$> s' :: ss) (reverse s)).
    rewrite bytes_Join_snoc.
    + rewrite <- app_assoc. reflexivity.
    + apply reverse_nonempty. discriminate.
Qed.

Lemma dotless_reverse (s : list byte) : dotless s -> dotless (reverse s).
Proof. unfold dotless. rewrite Forall_reverse. auto. Qed.

Lemma bytes_Split_reverse (s : list byte) :
  bytes_Split (reverse s) = reverse (reverse <$> bytes_Split s).
Proof.
  rewrite <- (bytes_Join_Split s) at 1.
  rewrite reverse_bytes_Join.
  apply bytes_Split_Join.
  - apply reverse_nonempty. intros Hnil.
    apply fmap_nil_inv in Hnil. exact (bytes_Split_nonempty s Hnil).
  - rewrite Forall_reverse, Forall_fmap.
    apply (List.Forall_impl _ dotless_reverse (bytes_Split_dotless s)).
Qed.

Lemma fmap_reverse_reverse (ss : list (list byte)) :
  reverse <$> (reverse <$> ss) = ss.
Proof.
  induction ss as [|s ss IH]; [reflexivity|].
  rewrite !fmap_cons, IH, reverse_involutive. reflexivity.
Qed.

Lemma ReverseMetricInplace_loop_spec (rest : list byte) :
  forall (pre cur : list byte),
    dotless cur ->
    ReverseMetricInplace_loop (length rest) (length pre + length cur)
      (length pre) (pre ++ cur ++ rest)
    = pre ++ bytes_Join (reverse <$> bytes_Split (cur ++ rest)).
Proof.
  induction rest as [|c rest IH]; intros pre cur Hcur.
  - cbn [ReverseMetricInplace_loop length].
    rewrite reverse_span_spec, !app_nil_r.
    rewrite bytes_Split_dotless_id by exact Hcur. reflexivity.
  - cbn [ReverseMetricInplace_loop length].
    rewrite app_assoc, list_lookup_middle
      by (rewrite length_app; reflexivity).
    rewrite <- app_assoc.
    destruct (is_dot c) eqn:Hc.
    + rewrite reverse_span_spec.
      rewrite bytes_Split_app_sep by assumption.
      rewrite fmap_cons, bytes_Join_cons.
      2:{ intros Hnil. apply fmap_nil_inv in Hnil.
          exact (bytes_Split_nonempty rest Hnil). }
      specialize (IH (pre ++ reverse cur ++ [c]) []).
      rewrite !length_app, length_reverse in IH. simpl in IH.
      replace (length pre + length cur + 1)
        with (length pre + (length cur + 1) + 0) by lia.
      replace (pre ++ reverse cur ++ c :: rest)
        with ((pre ++ reverse cur ++ [c]) ++ rest)
        by (rewrite <- !app_assoc; reflexivity).
      replace (length pre + (length cur + 1) + 0)
        with (length pre + (length cur + 1)) at 2 by lia.
      rewrite IH by constructor.
      rewrite <- !app_assoc. apply is_dot_true in Hc. subst c. reflexivity.
    + specialize (IH pre (cur ++ [c])).
      rewrite length_app in IH. simpl in IH.
      replace (length pre + length cur + 1)
        with (length pre + (length cur + 1)) by lia.
      replace (pre ++ cur ++ c :: rest) with (pre ++ (cur ++ [c]) ++ rest)
        by (rewrite <- !app_assoc; reflexivity).
      rewrite IH.
      * rewrite <- !app_assoc. reflexivity.
      * apply Forall_app. split; [exact Hcur | repeat constructor; exact Hc].
Qed.

(** The in-place reversal gives the pieces in reverse order. *)
Lemma ReverseMetricInplace_eq (target : list byte) :
  ReverseMetricInplace target = bytes_Join (reverse (bytes_Split target)).
Proof.
  unfold ReverseMetricInplace.
  rewrite reverse_span_whole.
  pose proof (ReverseMetricInplace_loop_spec (reverse target) [] []) as H.
  rewrite length_reverse in H. simpl in H.
  rewrite H by constructor.
  rewrite bytes_Split_reverse, fmap_reverse, fmap_reverse_reverse.
  reflexivity.
Qed.

Lemma split_head (head : list byte) (n m : nat) :
  length head = m + S n ->
  exists h1 b h2,
    head = h1 ++ b :: h2 /\ length h1 = n /\ length h2 = m.
Proof.
  intros Hlen.
  destruct (drop n head) as [|b h2] eqn:Hdrop.
  - apply (f_equal length) in Hdrop. rewrite length_drop in Hdrop.
    simpl in Hdrop. lia.
  - exists (take n head), b, h2. split; [|split].
    + rewrite <- Hdrop, take_drop. reflexivity.
    + rewrite length_take. lia.
    + apply (f_equal length) in Hdrop. rewrite length_drop in Hdrop.
      simpl in Hdrop. lia.
Qed.

Lemma write_segment (h1 h2 tail cur : list byte) (b c : byte) :
  length h2 = length cur ->
  <[length h1 := c]>
    (list_inserts (length h1 + 1) cur (h1 ++ (b :: h2) ++ tail))
  = h1 ++ c :: cur ++ tail.
Proof.
  intros Hlen.
  rewrite list_inserts_app_r.
  change ((b :: h2) ++ tail) with (b :: (h2 ++ tail)).
  rewrite list_inserts_cons, list_inserts_0_r by lia.
  rewrite <- (Nat.add_0_r (length h1)) at 1.
  rewrite insert_app_r. reflexivity.
Qed.

Lemma ReverseBytesTo_loop_spec (rest : list byte) :
  forall (done cur head tail : list byte),
    dotless cur ->
    length head = length cur + length rest ->
    ReverseBytesTo_loop (length rest) (length done + length cur)
      (length done) (length head) (done ++ cur ++ rest) (head ++ tail)
    = bytes_Join (reverse (bytes_Split (cur ++ rest))) ++ tail.
Proof.
  induction rest as [|c rest IH]; intros done cur head tail Hcur Hlen.
  - cbn [ReverseBytesTo_loop length].
    rewrite drop_app_length, !app_nil_r.
    rewrite list_inserts_0_r by (simpl in Hlen; lia).
    rewrite bytes_Split_dotless_id by exact Hcur. reflexivity.
  - cbn [ReverseBytesTo_loop length].
    rewrite app_assoc, list_lookup_middle
      by (rewrite length_app; reflexivity).
    rewrite <- app_assoc.
    destruct (is_dot c) eqn:Hc.
    + replace (length done + length cur - length done) with (length cur)
        by lia.
      rewrite drop_app_length, take_app_length.
      simpl in Hlen.
      destruct (split_head head (length rest) (length cur)) as
        (h1 & b & h2 & -> & Hh1 & Hh2); [lia|].
      replace (length (h1 ++ b :: h2) - length cur - 1) with (length h1)
        by (rewrite length_app; simpl; lia).
      rewrite <- app_assoc, write_segment by exact Hh2.
      specialize (IH (done ++ cur ++ [c]) [] h1 (c :: cur ++ tail)).
      rewrite !length_app in IH. simpl in IH.
      replace (length done + length cur + 1)
        with (length done + (length cur + 1) + 0) by lia.
      replace (done ++ cur ++ c :: rest)
        with ((done ++ cur ++ [c]) ++ rest)
        by (rewrite <- !app_assoc; reflexivity).
      replace (length done + (length cur + 1) + 0)
        with (length done + (length cur + 1)) at 2 by lia.
      rewrite IH by (constructor || exact Hh1).
      rewrite bytes_Split_app_sep by assumption.
      rewrite reverse_cons, bytes_Join_snoc
        by (apply reverse_nonempty, bytes_Split_nonempty).
      rewrite <- app_assoc. apply is_dot_true in Hc. subst c. reflexivity.
    + specialize (IH done (cur ++ [c]) head tail).
      rewrite length_app in IH. simpl in IH.
      replace (length done + length cur + 1)
        with (length done + (length cur + 1)) by lia.
      replace (done ++ cur ++ c :: rest) with (done ++ (cur ++ [c]) ++ rest)
        by (rewrite <- !app_assoc; reflexivity).
      rewrite IH.
      * rewrite <- !app_assoc. reflexivity.
      * apply Forall_app. split; [exact Hcur | repeat constructor; exact Hc].
      * simpl in Hlen. lia.
Qed.

(** The copy writes the pieces in reverse order over the first
    [len(source)] bytes of the destination and leaves the rest. *)
Lemma ReverseBytesTo_eq (target source : list byte) :
  length source <= length target ->
  ReverseBytesTo target source
  = bytes_Join (reverse (bytes_Split source)) ++ drop (length source) target.
Proof.
  intros Hlen. unfold ReverseBytesTo.
  pose proof (ReverseBytesTo_loop_spec source [] []
                (take (length source) target)
                (drop (length source) target)) as H.
  rewrite take_drop, length_take in H. simpl in H.
  replace (length source `min` length target) with (length source) in H
    by lia.
  apply H; [constructor | reflexivity].
Qed.

(** The length of a path is kept by the reference reversal. *)
Lemma bytes_Join_length_reverse (ss : list (list byte)) :
  length (bytes_Join (reverse ss)) = length (bytes_Join ss).
Proof.
  induction ss as [|s ss IH]; [reflexivity|].
  destruct ss as [|s' ss]; [reflexivity|].
  rewrite reverse_cons, bytes_Join_snoc
    by (apply reverse_nonempty; discriminate).
  rewrite bytes_Join_cons by discriminate.
  rewrite !length_app, !length_cons, IH. lia.
Qed.

Lemma reverseBytesOriginal_length (target : list byte) :
  length (reverseBytesOriginal target) = length target.
Proof.
  rewrite reverseBytesOriginal_eq, bytes_Join_length_reverse.
  rewrite bytes_Join_Split. reflexivity.
Qed.

(** C4. For every byte sequence [S] and every destination as long as [S],
    the in-place reversal of (a copy of) [S] and the copy of the reversal
    of [S] into the destination both give the bytes of the reference,
    which are the pieces of [S] between the separators, in reverse order,
    joined by the separator; so the two flavors agree with each other. *)
Theorem reversal_flavors_agree_with_reference (S dst : list byte) :
  length dst = length S ->
  ReverseMetricInplace S = reverseBytesOriginal S
  /\ ReverseBytesTo dst S = reverseBytesOriginal S
  /\ ReverseMetricInplace S = ReverseBytesTo dst S
  /\ reverseBytesOriginal S = bytes_Join (reverse (bytes_Split S)).
Proof.
  intros Hlen.
  assert (Hto : ReverseBytesTo dst S = reverseBytesOriginal S).
  { rewrite ReverseBytesTo_eq by lia.
    rewrite <- Hlen, drop_all, app_nil_r.
    symmetry. apply reverseBytesOriginal_eq. }
  assert (Hin : ReverseMetricInplace S = reverseBytesOriginal S).
  { rewrite ReverseMetricInplace_eq. symmetry. apply reverseBytesOriginal_eq. }
  repeat split.
  - exact Hin.
  - exact Hto.
  - rewrite Hin, Hto. reflexivity.
  - apply reverseBytesOriginal_eq.
Qed.

(** C5. Reversing the pieces of a byte sequence twice gives the sequence
    back. *)
Theorem reversal_involutive (S : list byte) :
  reverseBytesOriginal (reverseBytesOriginal S) = S.
Proof.
  rewrite !reverseBytesOriginal_eq.
  rewrite bytes_Split_Join.
  - rewrite reverse_involutive. apply bytes_Join_Split.
  - apply reverse_nonempty, bytes_Split_nonempty.
  - rewrite Forall_reverse. apply bytes_Split_dotless.
Qed.

End Reversal.

Lemma reversal_flavors_agree_with_reference_witness :
  length (replicate 10 x00) = length path_carbon_xx
  /\ ReverseMetricInplace path_carbon_xx = reverseBytesOriginal path_carbon_xx
  /\ ReverseBytesTo (replicate 10 x00) path_carbon_xx
     = reverseBytesOriginal path_carbon_xx.
Proof.
  split; [reflexivity|].
  destruct (reversal_flavors_agree_with_reference
              path_carbon_xx (replicate 10 x00) eq_refl) as (Hin & Hto & _).
  split; [exact Hin | exact Hto].
Defined.

Local Open Scope Z_scope.

(** ** The reader: fixed-size reads *)

Lemma byte_val_range (b : byte) : 0 <= byte_val b < 256.
Proof.
  unfold byte_val. pose proof (Byte.to_N_bounded b). lia.
Qed.

Lemma NewReader_wf {Src : Type} (rdr : Src) : wf_reader (NewReader rdr).
Proof.
  unfold wf_reader, cap_buf, NewReader. cbn [buf].
  rewrite length_replicate. apply Z2Nat.id. discriminate.
Qed.

Lemma lor_shiftl_add (a b k : Z) :
  0 <= k -> 0 <= a < 2 ^ k -> Z.lor a (Z.shiftl b k) = a + b * 2 ^ k.
Proof.
  intros Hk Ha.
  assert (Hland : Z.land a (Z.shiftl b k) = 0).
  { apply Z.bits_inj'. intros n Hn.
    rewrite Z.land_spec, Z.bits_0.
    destruct (Z.lt_ge_cases n k) as [Hlt | Hge].
    - rewrite Z.shiftl_spec_low by assumption. apply andb_false_r.
    - replace (Z.testbit a n) with false; [reflexivity|].
      symmetry. destruct (Z.eq_dec a 0) as [-> | Hne].
      + apply Z.bits_0.
      + apply Z.bits_above_log2; [lia|].
        apply Z.log2_lt_pow2; [lia|].
        apply Z.lt_le_trans with (2 ^ k); [lia|].
        apply Z.pow_le_mono_r; lia. }
  rewrite <- Z.lxor_lor by assumption.
  rewrite <- Z.add_nocarry_lxor by assumption.
  rewrite Z.shiftl_mul_pow2 by assumption. reflexivity.
Qed.

Lemma le_sum_range (l : list byte) : 0 <= le_sum l < 2 ^ (8 * Z.of_nat (length l)).
Proof.
  induction l as [|b l IH]; [simpl; lia|].
  cbn [le_sum length]. pose proof (byte_val_range b) as Hb.
  replace (8 * Z.of_nat (S (length l))) with (8 + 8 * Z.of_nat (length l)) by lia.
  rewrite Z.pow_add_r by lia.
  change (2 ^ 8) with 256. nia.
Qed.

Lemma LittleEndian_Uint16_le_sum (b0 b1 : byte) :
  LittleEndian_Uint16 [b0; b1] = Some (le_sum [b0; b1]).
Proof.
  pose proof (byte_val_range b0). pose proof (byte_val_range b1).
  unfold LittleEndian_Uint16, le_sum. f_equal.
  rewrite lor_shiftl_add by lia. lia.
Qed.

Lemma LittleEndian_Uint32_le_sum (b0 b1 b2 b3 : byte) :
  LittleEndian_Uint32 [b0; b1; b2; b3] = Some (le_sum [b0; b1; b2; b3]).
Proof.
  pose proof (byte_val_range b0). pose proof (byte_val_range b1).
  pose proof (byte_val_range b2). pose proof (byte_val_range b3).
  unfold LittleEndian_Uint32, le_sum. f_equal.
  rewrite (lor_shiftl_add (byte_val b0)) by lia.
  rewrite (lor_shiftl_add _ _ 16) by lia.
  rewrite (lor_shiftl_add _ _ 24) by lia.
  lia.
Qed.

Lemma LittleEndian_Uint64_le_sum (b0 b1 b2 b3 b4 b5 b6 b7 : byte) :
  LittleEndian_Uint64 [b0; b1; b2; b3; b4; b5; b6; b7]
  = Some (le_sum [b0; b1; b2; b3; b4; b5; b6; b7]).
Proof.
  pose proof (byte_val_range b0). pose proof (byte_val_range b1).
  pose proof (byte_val_range b2). pose proof (byte_val_range b3).
  pose proof (byte_val_range b4). pose proof (byte_val_range b5).
  pose proof (byte_val_range b6). pose proof (byte_val_range b7).
  unfold LittleEndian_Uint64, le_sum. f_equal.
  rewrite (lor_shiftl_add (byte_val b0)) by lia.
  rewrite (lor_shiftl_add _ _ 16) by lia.
  rewrite (lor_shiftl_add _ _ 24) by lia.
  rewrite (lor_shiftl_add _ _ 32) by lia.
  rewrite (lor_shiftl_add _ _ 40) by lia.
  rewrite (lor_shiftl_add _ _ 48) by lia.
  rewrite (lor_shiftl_add _ _ 56) by lia.
  lia.
Qed.

Lemma take_list_inserts_0 {A : Type} (data b : list A) :
  (length data <= length b)%nat ->
  take (length data) (list_inserts 0 data b) = data.
Proof.
  intros Hlen.
  rewrite <- (take_drop (length data) b).
  rewrite list_inserts_0_r by (rewrite length_take; lia).
  apply take_app_length.
Qed.

Section FixedReads.
Context {Src : Type} `{IOReader Src}.

Lemma wrapped_Read_eq (r : Reader Src) (lo : Z) (n : nat) data err s' :
  io_Read (wrapped r) n = (data, err, s') ->
  wrapped_Read r lo n
  = (data, err, mkReader s' (list_inserts (Z.to_nat lo) data (buf r))).
Proof. intros Hrd. unfold wrapped_Read. rewrite Hrd. reflexivity. Qed.

(** The three ways out of [read] when the slice [r.buf[0:want]] exists. *)
Lemma read_error (r : Reader Src) (want : Z) data (e : error) s' :
  0 <= want <= cap_buf r ->
  io_Read (wrapped r) (Z.to_nat want) = (data, Some e, s') ->
  read r want = (Return [] (Some e), mkReader s' (list_inserts 0 data (buf r))).
Proof.
  intros Hwant Hrd. unfold read.
  replace ((want <? 0) || (cap_buf r <? want)) with false
    by (symmetry; apply orb_false_iff; split; apply Z.ltb_ge; lia).
  rewrite (wrapped_Read_eq _ _ _ _ _ _ Hrd). reflexivity.
Qed.

Lemma read_short (r : Reader Src) (want : Z) data s' :
  0 <= want <= cap_buf r ->
  io_Read (wrapped r) (Z.to_nat want) = (data, None, s') ->
  Z.of_nat (length data) < want ->
  read r want
  = (Return [] (Some io_EOF), mkReader s' (list_inserts 0 data (buf r))).
Proof.
  intros Hwant Hrd Hlen. unfold read.
  replace ((want <? 0) || (cap_buf r <? want)) with false
    by (symmetry; apply orb_false_iff; split; apply Z.ltb_ge; lia).
  rewrite (wrapped_Read_eq _ _ _ _ _ _ Hrd).
  replace (Z.of_nat (length data) <? want) with true
    by (symmetry; apply Z.ltb_lt; lia).
  reflexivity.
Qed.

Lemma read_full (r : Reader Src) (want : Z) data s' :
  0 <= want <= cap_buf r ->
  io_Read (wrapped r) (Z.to_nat want) = (data, None, s') ->
  Z.of_nat (length data) = want ->
  read r want
  = (Return data None, mkReader s' (list_inserts 0 data (buf r))).
Proof.
  intros Hwant Hrd Hlen. unfold read.
  replace ((want <? 0) || (cap_buf r <? want)) with false
    by (symmetry; apply orb_false_iff; split; apply Z.ltb_ge; lia).
  rewrite (wrapped_Read_eq _ _ _ _ _ _ Hrd).
  replace (Z.of_nat (length data) <? want) with false
    by (symmetry; apply Z.ltb_ge; lia).
  cbn [buf].
  replace (Z.to_nat want) with (length data) by lia.
  rewrite take_list_inserts_0; [reflexivity|].
  unfold cap_buf in Hwant. lia.
Qed.


(** [read] keeps the buffer at its size. *)
Lemma read_wf (r : Reader Src) (want : Z) :
  wf_reader r -> wf_reader (read r want).2.
Proof.
  intros Hwf. unfold read.
  destruct ((want <? 0) || (cap_buf r <? want)); [exact Hwf|].
  unfold wrapped_Read.
  destruct (io_Read (wrapped r) (Z.to_nat want)) as [[data err] s'].
  assert (Hwf' : wf_reader (mkReader s' (list_inserts (Z.to_nat 0) data (buf r)))).
  { unfold wf_reader, cap_buf in *. cbn [buf]. rewrite length_inserts. exact Hwf. }
  destruct err; [exact Hwf'|].
  destruct (Z.of_nat (length data) <? want); exact Hwf'.
Qed.


Lemma read_fixed_error (size : Z) conv (r : Reader Src) data e s' :
  0 <= size <= cap_buf r ->
  io_Read (wrapped r) (Z.to_nat size) = (data, Some e, s') ->
  read_fixed size conv r
  = (Return 0 (Some e), mkReader s' (list_inserts 0 data (buf r))).
Proof.
  intros Hsize Hrd. unfold read_fixed.
  rewrite (read_error _ _ _ _ _ Hsize Hrd). reflexivity.
Qed.

Lemma read_fixed_full (size : Z) conv (r : Reader Src) data s' v :
  0 <= size <= cap_buf r ->
  io_Read (wrapped r) (Z.to_nat size) = (data, None, s') ->
  Z.of_nat (length data) = size ->
  conv data = Some v ->
  read_fixed size conv r
  = (Return v None, mkReader s' (list_inserts 0 data (buf r))).
Proof.
  intros Hsize Hrd Hlen Hconv. unfold read_fixed.
  rewrite (read_full _ _ _ _ Hsize Hrd Hlen), Hconv. reflexivity.
Qed.

End FixedReads.

(** ** The reader: unsigned varints *)

Lemma land_0x7f_range (v : Z) : 0 <= Z.land v 0x7f < 128.
Proof.
  change 0x7f with (Z.ones 7). rewrite Z.land_ones by lia.
  change (2 ^ 7) with 128. apply Z.mod_pos_bound. lia.
Qed.

(** A group of seven bits put above the [s] low bits already gathered. *)
Lemma varint_group (x v s : Z) :
  0 <= s <= 49 -> 0 <= x < 2 ^ s -> 0 <= v < 128 ->
  Z.lor x (u64 (Z.shiftl v s)) = x + v * 2 ^ s
  /\ 0 <= x + v * 2 ^ s < 2 ^ (s + 7).
Proof.
  intros Hs Hx Hv.
  assert (Hpow : 2 ^ (s + 7) = 2 ^ s * 128)
    by (rewrite Z.pow_add_r by lia; reflexivity).
  assert (Hle : 2 ^ (s + 7) <= 2 ^ 56) by (apply Z.pow_le_mono_r; lia).
  assert (Hsh : Z.shiftl v s = v * 2 ^ s) by (apply Z.shiftl_mul_pow2; lia).
  assert (Hbound : 0 <= x + v * 2 ^ s < 2 ^ (s + 7)) by nia.
  split; [|exact Hbound].
  unfold u64. rewrite Z.mod_small.
  - apply lor_shiftl_add; lia.
  - rewrite Hsh. change (2 ^ 64) with (2 ^ 56 * 256). nia.
Qed.

Section Uvarint.
Context {Src : Type} `{IOReader Src}.

(** One turn of the loop of [ReadUvarint] on a reader whose buffer has its
    full size, by what the source gives for one byte asked. *)
Lemma ReadUvarint_loop_step (k : nat) (i x s : Z) (r : Reader Src) data err s' :
  wf_reader r -> 0 <= i < 8 ->
  io_Read (wrapped r) 1 = (data, err, s') ->
  let r' := mkReader s' (list_inserts (Z.to_nat i) data (buf r)) in
  ReadUvarint_loop (S k) i x s r =
  match err with
  | Some e => (Return 0 (Some e), r')
  | None =>
      match data with
      | [b] =>
          if byte_val b <? 0x80
          then (Return (Z.lor x (u64 (Z.shiftl (byte_val b) s))) None, r')
          else ReadUvarint_loop k (i + 1)
                 (Z.lor x (u64 (Z.shiftl (Z.land (byte_val b) 0x7f) s)))
                 (s + 7) r'
      | _ => (Return 0 (Some io_EOF), r')
      end
  end.
Proof.
  intros Hwf Hi Hrd r'. cbn [ReadUvarint_loop].
  unfold wf_reader, BUF_SIZE in Hwf.
  replace ((i <? 0) || (cap_buf r <? i + 1)) with false
    by (symmetry; apply orb_false_iff; split; apply Z.ltb_ge; lia).
  rewrite (wrapped_Read_eq _ _ _ _ _ _ Hrd). fold r'.
  destruct err as [e|]; [reflexivity|].
  destruct data as [|b [|b' data]]; [reflexivity| |].
  2:{ replace (Z.of_nat (length (b :: b' :: data)) =? 1) with false;
        [reflexivity|].
      symmetry. apply Z.eqb_neq. cbn [length]. lia. }
  cbn [length negb Z.of_nat Pos.of_succ_nat Z.eqb Pos.eqb].
  assert (Hlook : buf r' !! Z.to_nat i = Some b).
  { unfold r'. cbn [buf list_inserts].
    apply list_lookup_insert_eq. unfold cap_buf in Hwf. lia. }
  rewrite Hlook.
  replace ((9 <? i) || (i =? 9) && (1 <? byte_val b)) with false; [reflexivity|].
  symmetry. apply orb_false_iff. split.
  - apply Z.ltb_ge. lia.
  - apply andb_false_iff. left. apply Z.eqb_neq. lia.
Qed.

Lemma ReadUvarint_loop_outcome (k : nat) :
  forall (i x s : Z) (r : Reader Src),
    wf_reader r -> 0 <= i -> i + Z.of_nat k = 8 -> s = 7 * i ->
    0 <= x < 2 ^ s ->
    wf_reader (ReadUvarint_loop k i x s r).2
    /\ uvarint_outcome (ReadUvarint_loop k i x s r).1.
Proof.
  induction k as [|k IH]; intros i x s r Hwf Hi Hik Hs Hx.
  - cbn. split; [exact Hwf | reflexivity].
  - destruct (io_Read (wrapped r) 1) as [[data err] s'] eqn:Hrd.
    rewrite (ReadUvarint_loop_step k i x s r data err s' Hwf) by (lia || exact Hrd).
    assert (Hwf' : wf_reader (mkReader s' (list_inserts (Z.to_nat i) data (buf r)))).
    { unfold wf_reader, cap_buf in *. cbn [buf]. rewrite length_inserts. exact Hwf. }
    destruct err as [e|]; [split; [exact Hwf' | reflexivity]|].
    destruct data as [|b [|b' data]]; try (split; [exact Hwf' | reflexivity]).
    pose proof (byte_val_range b) as Hb.
    destruct (byte_val b <? 0x80) eqn:Hlt.
    + apply Z.ltb_lt in Hlt.
      destruct (varint_group x (byte_val b) s) as [Heq Hbound]; try lia.
      split; [exact Hwf'|]. cbn. rewrite Heq.
      assert (2 ^ (s + 7) <= 2 ^ 56) by (apply Z.pow_le_mono_r; lia). lia.
    + pose proof (land_0x7f_range (byte_val b)) as Hland.
      destruct (varint_group x (Z.land (byte_val b) 0x7f) s) as [Heq Hbound];
        try lia.
      apply IH; try lia; exact Hwf'.
Qed.

Lemma ReadUvarint_outcome (r : Reader Src) :
  wf_reader r ->
  wf_reader (ReadUvarint r).2 /\ uvarint_outcome (ReadUvarint r).1.
Proof.
  intros Hwf. unfold ReadUvarint.
  apply ReadUvarint_loop_outcome; try assumption; try reflexivity.
  change (2 ^ (7 * 0)) with 1. lia.
Qed.


End Uvarint.

(** ** The claims on the fixed-size reads *)

Lemma LittleEndian_Uint16_range (b : list byte) (d : Z) :
  LittleEndian_Uint16 b = Some d -> 0 <= d < 65536.
Proof.
  destruct b as [|b0 [|b1 t]]; try discriminate.
  cbn [LittleEndian_Uint16]. intros [= <-].
  pose proof (byte_val_range b0). pose proof (byte_val_range b1).
  rewrite lor_shiftl_add by lia. lia.
Qed.

Section FixedReadClaims.
Context {Src : Type} `{IOReader Src}.

Lemma ReadUint8_read_fixed (r : Reader Src) :
  ReadUint8 r = read_fixed SIZE_INT8 first_byte r.
Proof.
  unfold ReadUint8, read_fixed, first_byte.
  destruct (read r SIZE_INT8) as [[v [e|]|p] r']; try reflexivity.
  destruct (v !! 0%nat); reflexivity.
Qed.

(** Each unsigned read is [read] of its size followed by a conversion that
    gives the little-endian value of that many bytes. *)
Lemma uint_reads_shape (size : Z) rd :
  In (size, rd) uint_reads ->
  0 < size <= 8
  /\ exists conv,
       (forall r, rd r = read_fixed size conv r)
       /\ (forall data, Z.of_nat (length data) = size ->
             conv data = Some (le_sum data)).
Proof.
  intros Hin. cbn in Hin.
  destruct Hin as [Heq | [Heq | [Heq | [Heq | []]]]];
    injection Heq as <- <-; (split; [unfold SIZE_INT8, SIZE_INT16, SIZE_INT32, SIZE_INT64; lia|]).
  - exists first_byte. split; [apply ReadUint8_read_fixed|].
    intros [|b0 [|b1 t]] Hlen; try (exfalso; cbn [length] in Hlen; unfold SIZE_INT8, SIZE_INT16, SIZE_INT32, SIZE_INT64 in Hlen; lia).
    cbn. f_equal. lia.
  - exists LittleEndian_Uint16. split; [reflexivity|].
    intros [|b0 [|b1 [|b2 t]]] Hlen; try (exfalso; cbn [length] in Hlen; unfold SIZE_INT8, SIZE_INT16, SIZE_INT32, SIZE_INT64 in Hlen; lia).
    apply LittleEndian_Uint16_le_sum.
  - exists LittleEndian_Uint32. split; [reflexivity|].
    intros [|b0 [|b1 [|b2 [|b3 [|b4 t]]]]] Hlen; try (exfalso; cbn [length] in Hlen; unfold SIZE_INT8, SIZE_INT16, SIZE_INT32, SIZE_INT64 in Hlen; lia).
    apply LittleEndian_Uint32_le_sum.
  - exists LittleEndian_Uint64. split; [reflexivity|].
    intros [|b0 [|b1 [|b2 [|b3 [|b4 [|b5 [|b6 [|b7 [|b8 t]]]]]]]]] Hlen;
      try (exfalso; cbn [length] in Hlen; unfold SIZE_INT8, SIZE_INT16, SIZE_INT32, SIZE_INT64 in Hlen; lia).
    apply LittleEndian_Uint64_le_sum.
Qed.


(** C6. When one [Read] of the source gives fewer bytes than a fixed-size
    read asks for and no error, the read fails with [io.EOF] at once: the
    reader it leaves holds the source in the state after that single [Read].
    This is so for [read] itself, for [ReadUint8/16/32/64], [ReadFloat64] and
    [ReadDate], and for the payload of [ReadStringBytes] after its length
    [want] has been read. *)
Theorem short_read_fails_with_EOF
    (r : Reader Src) (want : Z) (data : list byte) (s' : Src) :
  wf_reader r ->
  0 < want <= BUF_SIZE ->
  io_Read (wrapped r) (Z.to_nat want) = (data, None, s') ->
  Z.of_nat (length data) < want ->
  let r' := mkReader s' (list_inserts 0 data (buf r)) in
  read r want = (Return [] (Some io_EOF), r')
  /\ (want = SIZE_INT8 -> ReadUint8 r = (Return 0 (Some io_EOF), r'))
  /\ (want = SIZE_INT16 ->
      ReadUint16 r = (Return 0 (Some io_EOF), r')
      /\ ReadDate r = (Return (time_Unix 0 0) (Some io_EOF), r'))
  /\ (want = SIZE_INT32 -> ReadUint32 r = (Return 0 (Some io_EOF), r'))
  /\ (want = SIZE_INT64 ->
      ReadUint64 r = (Return 0 (Some io_EOF), r')
      /\ ReadFloat64 r = (Return (Float64frombits 0) (Some io_EOF), r'))
  /\ (forall r0 : Reader Src,
        ReadUvarint r0 = (Return want None, r) ->
        ReadStringBytes r0 = (Return [] (Some io_EOF), r')
        /\ ReadString r0 = (Return [] (Some io_EOF), r')).
Proof.
  intros Hwf Hwant Hrd Hlen r'.
  assert (Hcap : 0 <= want <= cap_buf r) by (rewrite Hwf; lia).
  pose proof (read_short r want data s' Hcap Hrd Hlen) as Hread.
  fold r' in Hread.
  split; [exact Hread|].
  split; [intros ->; unfold ReadUint8; rewrite Hread; reflexivity|].
  split.
  { intros ->. unfold ReadDate, ReadUint16, read_fixed. rewrite Hread.
    split; reflexivity. }
  split; [intros ->; unfold ReadUint32, read_fixed; rewrite Hread; reflexivity|].
  split.
  { intros ->. unfold ReadFloat64, ReadUint64, read_fixed. rewrite Hread.
    split; reflexivity. }
  intros r0 Hvar.
  assert (Hsb : ReadStringBytes r0 = (Return [] (Some io_EOF), r')).
  { unfold ReadStringBytes. rewrite Hvar.
    replace (want =? 0) with false by (symmetry; apply Z.eqb_neq; lia).
    replace (int_of_uint64 want) with want.
    - rewrite Hread. reflexivity.
    - unfold int_of_uint64, BUF_SIZE in *.
      replace (want <? 2 ^ 63) with true; [reflexivity|].
      symmetry. apply Z.ltb_lt.
      assert (65536 < 2 ^ 63) by reflexivity. lia. }
  split; [exact Hsb|]. unfold ReadString. rewrite Hsb. reflexivity.
Qed.

(** C8. A day count [d] read by [ReadUint16] makes [ReadDate] return the
    time [d * 86400] seconds after the Unix epoch, in UTC: midnight of the
    day [d] days after 1970-01-01; for [d = 1] it is 1970-01-02 00:00:00. *)
Theorem ReadDate_is_day_count (r r' : Reader Src) (d : Z) :
  ReadUint16 r = (Return d None, r') ->
  let t := mkTime (d * 86400) 0 UTC in
  ReadDate r = (Return t None, r')
  /\ 0 <= d < 65536
  /\ Time_Date t = civil_from_days d
  /\ Time_Clock t = (0, 0, 0)
  /\ (d = 1 -> Time_Date t = (1970, 1, 2)).
Proof.
  intros Hrd t.
  assert (Hd : 0 <= d < 65536).
  { unfold ReadUint16, read_fixed in Hrd.
    destruct (read r SIZE_INT16) as [[b [e|]|p] r1]; try discriminate.
    destruct (LittleEndian_Uint16 b) as [v|] eqn:Hconv; try discriminate.
    injection Hrd as <- <-. eapply LittleEndian_Uint16_range; eassumption. }
  assert (Hi64 : i64 (d * 86400) = d * 86400).
  { unfold i64. rewrite Z.mod_small; [lia|].
    assert (65536 * 86400 < 2 ^ 63) by reflexivity.
    assert (2 ^ 63 + 2 ^ 63 = 2 ^ 64) by reflexivity. lia. }
  split.
  { unfold ReadDate. rewrite Hrd. unfold DateUint16, Time_UTC, time_Unix.
    cbn [unix_sec unix_nsec]. rewrite Hi64.
    change (0 / 1000000000) with 0. change (0 mod 1000000000) with 0.
    rewrite Z.add_0_r. reflexivity. }
  split; [exact Hd|].
  split.
  { unfold Time_Date, t. cbn [unix_sec]. rewrite Z.div_mul by lia. reflexivity. }
  split.
  { unfold Time_Clock, t. cbn [unix_sec]. rewrite Z.mod_mul by lia. reflexivity. }
  intros ->. reflexivity.
Qed.


End FixedReadClaims.

(** ** The claims on lists of strings *)



Section StringListClaims.
Context {Src : Type} `{IOReader Src}.








End StringListClaims.

(** ** The claims at concrete streams *)


Lemma short_read_fails_with_EOF_witness :
  wf_reader (NewReader chunks_1_2)
  /\ 0 < SIZE_INT16 <= BUF_SIZE
  /\ io_Read (wrapped (NewReader chunks_1_2)) (Z.to_nat SIZE_INT16)
     = ([x01], None, [[x02]])
  /\ Z.of_nat (length [x01]) < SIZE_INT16
  /\ ReadUint16 (NewReader chunks_1_2)
     = (Return 0 (Some io_EOF),
        mkReader [[x02]] (list_inserts 0 [x01] (buf (NewReader chunks_1_2)))).
Proof.
  pose proof (NewReader_wf chunks_1_2) as Hwf.
  assert (Hrange : 0 < SIZE_INT16 <= BUF_SIZE) by (split; reflexivity || discriminate).
  assert (Hrd : io_Read (wrapped (NewReader chunks_1_2)) (Z.to_nat SIZE_INT16)
                = ([x01], None, [[x02]])) by reflexivity.
  assert (Hlen : Z.of_nat (length [x01]) < SIZE_INT16) by reflexivity.
  destruct (short_read_fails_with_EOF (NewReader chunks_1_2) SIZE_INT16
              [x01] [[x02]] Hwf Hrange Hrd Hlen) as (_ & _ & H16 & _).
  split; [exact Hwf|]. split; [exact Hrange|]. split; [exact Hrd|].
  split; [exact Hlen|]. exact (proj1 (H16 eq_refl)).
Defined.

Lemma ReadDate_is_day_count_witness :
  ReadUint16 (NewReader stream_day_1)
  = (Return 1 None, (ReadUint16 (NewReader stream_day_1)).2)
  /\ (ReadDate (NewReader stream_day_1)).1 = Return (mkTime 86400 0 UTC) None
  /\ Time_Date (mkTime 86400 0 UTC) = (1970, 1, 2)
  /\ Time_Clock (mkTime 86400 0 UTC) = (0, 0, 0).
Proof.
  assert (Hval : (ReadUint16 (NewReader stream_day_1)).1 = Return 1 None)
    by (vm_compute; reflexivity).
  assert (Hrd : ReadUint16 (NewReader stream_day_1)
                = (Return 1 None, (ReadUint16 (NewReader stream_day_1)).2))
    by (rewrite <- Hval; apply surjective_pairing).
  destruct (ReadDate_is_day_count _ _ _ Hrd) as (Hdate & _ & _ & Hclock & Hday).
  split; [exact Hrd|]. split; [rewrite Hdate; reflexivity|].
  split; [exact (Hday eq_refl) | exact Hclock].
Defined.










(** ** Varints: the encoder and the round trip *)


Lemma byte_val_byte_of_Z (z : Z) : byte_val (byte_of_Z z) = z mod 256.
Proof.
  unfold byte_of_Z, byte_val.
  pose proof (Z.mod_pos_bound z 256 eq_refl) as Hrange.
  destruct (Byte.of_N (Z.to_N (z mod 256))) as [b|] eqn:Hof.
  - apply Byte.to_of_N in Hof. rewrite Hof. lia.
  - apply Byte.of_N_None_iff in Hof. lia.
Qed.

(** The byte [b | 0x80] carries the continuation bit, and its low seven bits
    are those of [b]. *)
Lemma continuation_byte (b : byte) :
  let c := byte_of_Z (Z.lor (byte_val b) 0x80) in
  (byte_val c <? 0x80) = false
  /\ Z.land (byte_val c) 0x7f = byte_val b mod 128.
Proof. destruct b; vm_compute; split; reflexivity. Qed.

Lemma wf_mkReader {Src : Type} (src : Src) (buf0 : list byte) :
  Z.of_nat (length buf0) = BUF_SIZE -> wf_reader (mkReader src buf0).
Proof. intros Hbuf. exact Hbuf. Qed.

Lemma BytesReader_Read_one (b : byte) (rest : list byte) :
  io_Read ((b :: rest) : BytesReader) 1 = ([b], None, rest).
Proof. reflexivity. Qed.

(** Decoding what the encoder wrote for a value that fits the groups the
    loop of [ReadUvarint] still has: [S k] turns left, [v < 2^(7 (S k))]. *)
Lemma ReadUvarint_loop_PutUvarint (k : nat) :
  forall (fuel : nat) (i x s v : Z) (rest buf0 : list byte),
    (k <= fuel)%nat ->
    0 <= i -> i + Z.of_nat (S k) = 8 -> s = 7 * i ->
    0 <= x < 2 ^ s ->
    0 <= v < 2 ^ (7 * Z.of_nat (S k)) ->
    Z.of_nat (length buf0) = BUF_SIZE ->
    (ReadUvarint_loop (S k) i x s
       (mkReader ((PutUvarint_loop fuel v ++ rest) : BytesReader) buf0)).1
    = Return (x + v * 2 ^ s) None.
Proof.
  induction k as [|k IH];
    intros fuel i x s v rest buf0 Hfuel Hi Hik Hs Hx Hv Hbuf.
  - assert (Hv' : 0 <= v < 128) by (change (2 ^ (7 * Z.of_nat 1)) with 128 in Hv; lia).
    assert (Hput : PutUvarint_loop fuel v = [byte_of_Z v]).
    { destruct fuel; [reflexivity|]. cbn [PutUvarint_loop].
      replace (0x80 <=? v) with false by (symmetry; apply Z.leb_gt; lia).
      reflexivity. }
    rewrite Hput. cbn [app].
    rewrite (ReadUvarint_loop_step 0 i x s _ _ _ _ (wf_mkReader _ _ Hbuf) ltac:(lia)
               (BytesReader_Read_one _ _)).
    rewrite byte_val_byte_of_Z, (Z.mod_small v 256) by lia.
    replace (v <? 0x80) with true by (symmetry; apply Z.ltb_lt; lia).
    cbn [fst]. f_equal.
    apply (varint_group x v s); lia.
  - destruct (Z.lt_ge_cases v 128) as [Hsmall | Hbig].
    + assert (Hput : PutUvarint_loop fuel v = [byte_of_Z v]).
      { destruct fuel; [reflexivity|]. cbn [PutUvarint_loop].
        replace (0x80 <=? v) with false by (symmetry; apply Z.leb_gt; lia).
        reflexivity. }
      rewrite Hput. cbn [app].
      rewrite (ReadUvarint_loop_step (S k) i x s _ _ _ _ (wf_mkReader _ _ Hbuf) ltac:(lia)
                 (BytesReader_Read_one _ _)).
      rewrite byte_val_byte_of_Z, (Z.mod_small v 256) by lia.
      replace (v <? 0x80) with true by (symmetry; apply Z.ltb_lt; lia).
      cbn [fst]. f_equal.
      apply (varint_group x v s); lia.
    + destruct fuel as [|fuel]; [lia|].
      cbn [PutUvarint_loop].
      replace (0x80 <=? v) with true by (symmetry; apply Z.leb_le; lia).
      cbn [app].
      rewrite (ReadUvarint_loop_step (S k) i x s _ _ _ _ (wf_mkReader _ _ Hbuf) ltac:(lia)
                 (BytesReader_Read_one _ _)).
      destruct (continuation_byte (byte_of_Z v)) as [Hcont Hlow].
      rewrite Hcont, Hlow, byte_val_byte_of_Z.
      assert (Hmod : (v mod 256) mod 128 = v mod 128).
      { apply Z.mod_mod_divide. exists 2. reflexivity. }
      rewrite Hmod.
      pose proof (Z.mod_pos_bound v 128 eq_refl) as Hlow_range.
      destruct (varint_group x (v mod 128) s) as [Heq Hbound]; try lia.
      rewrite Heq, Z.shiftr_div_pow2 by lia. change (2 ^ 7) with 128.
      assert (Hpow : 2 ^ (7 * Z.of_nat (S (S k))) = 128 * 2 ^ (7 * Z.of_nat (S k))).
      { replace (7 * Z.of_nat (S (S k))) with (7 + 7 * Z.of_nat (S k)) by lia.
        rewrite Z.pow_add_r by lia. reflexivity. }
      rewrite IH; try lia.
      * f_equal.
        replace (2 ^ (s + 7)) with (2 ^ s * 128)
          by (rewrite Z.pow_add_r by lia; reflexivity).
        pose proof (Z.div_mod v 128 ltac:(lia)) as Hdm. nia.
      * split; [apply Z.div_pos; lia|].
        apply Z.div_lt_upper_bound; lia.
      * cbn [buf]. rewrite length_inserts. exact Hbuf.
Qed.

(** The round trip below [2^56]: what the encoder writes for such a value
    is read back, whatever follows it in the stream. *)
Lemma ReadUvarint_PutUvarint_small (v : Z) (rest : list byte) :
  0 <= v < 2 ^ 56 ->
  (ReadUvarint (NewReader ((PutUvarint v ++ rest) : BytesReader))).1
  = Return v None.
Proof.
  intros Hv. unfold ReadUvarint, PutUvarint, NewReader.
  change (Z.to_nat SIZE_INT64) with 8%nat.
  rewrite (ReadUvarint_loop_PutUvarint 7 9 0 0 0 v rest).
  - f_equal. change (2 ^ 0) with 1. lia.
  - lia.
  - lia.
  - reflexivity.
  - reflexivity.
  - change (2 ^ 0) with 1. lia.
  - exact Hv.
  - rewrite length_replicate. apply Z2Nat.id. discriminate.
Qed.

(** As many continuation bytes as the loop of [ReadUvarint] has turns left
    take it to its guard. *)
Lemma ReadUvarint_loop_continuations (bs : list byte) :
  forall (i x s : Z) (rest buf0 : list byte),
    Forall continues bs ->
    0 <= i -> i + Z.of_nat (length bs) = 8 ->
    Z.of_nat (length buf0) = BUF_SIZE ->
    (ReadUvarint_loop (length bs) i x s
       (mkReader ((bs ++ rest) : BytesReader) buf0)).1
    = Return 0 (Some ErrUvarintOverflow).
Proof.
  induction bs as [|b bs IH]; intros i x s rest buf0 Hall Hi Hik Hbuf.
  - reflexivity.
  - inversion Hall as [|? ? Hb Hbs]; subst.
    cbn [length app] in *.
    rewrite (ReadUvarint_loop_step (length bs) i x s _ _ _ _
               (wf_mkReader _ _ Hbuf) ltac:(lia) (BytesReader_Read_one _ _)).
    unfold continues in Hb. rewrite Hb.
    apply IH; try assumption; try lia.
    rewrite length_inserts. exact Hbuf.
Qed.

(** Every stream that starts with eight continuation bytes is refused. *)
Lemma ReadUvarint_eight_continuations (bs rest : list byte) :
  length bs = 8%nat -> Forall continues bs ->
  (ReadUvarint (NewReader ((bs ++ rest) : BytesReader))).1
  = Return 0 (Some ErrUvarintOverflow).
Proof.
  intros Hlen Hall. unfold ReadUvarint, NewReader.
  change (Z.to_nat SIZE_INT64) with 8%nat. rewrite <- Hlen.
  apply ReadUvarint_loop_continuations.
  - exact Hall.
  - lia.
  - rewrite Hlen. reflexivity.
  - rewrite length_replicate. apply Z2Nat.id. discriminate.
Qed.

(** The encoder starts with [j] continuation bytes for a value of
    [2^(7 j)] or more. *)
Lemma PutUvarint_loop_continuations (j : nat) :
  forall (fuel : nat) (x : Z),
    (j <= fuel)%nat -> 2 ^ (7 * Z.of_nat j) <= x ->
    exists bs tl,
      PutUvarint_loop fuel x = bs ++ tl
      /\ length bs = j /\ Forall continues bs.
Proof.
  induction j as [|j IH]; intros fuel x Hfuel Hx.
  - exists [], (PutUvarint_loop fuel x). repeat split. constructor.
  - destruct fuel as [|fuel]; [lia|].
    assert (Hpow : 2 ^ (7 * Z.of_nat (S j)) = 128 * 2 ^ (7 * Z.of_nat j)).
    { replace (7 * Z.of_nat (S j)) with (7 + 7 * Z.of_nat j) by lia.
      rewrite Z.pow_add_r by lia. reflexivity. }
    assert (Hpos : 0 < 2 ^ (7 * Z.of_nat j)) by (apply Z.pow_pos_nonneg; lia).
    cbn [PutUvarint_loop].
    replace (0x80 <=? x) with true by (symmetry; apply Z.leb_le; lia).
    destruct (IH fuel (Z.shiftr x 7)) as (bs & tl & Heq & Hlen & Hall).
    + lia.
    + rewrite Z.shiftr_div_pow2 by lia. change (2 ^ 7) with 128.
      apply Z.div_le_lower_bound; lia.
    + exists (byte_of_Z (Z.lor (byte_val (byte_of_Z x)) 0x80) :: bs), tl.
      rewrite Heq. split; [reflexivity|]. split; [cbn; lia|].
      constructor; [|exact Hall].
      apply (continuation_byte (byte_of_Z x)).
Qed.

(** From [2^56] on the encoding of a value is refused. *)
Lemma ReadUvarint_PutUvarint_large (v : Z) (rest : list byte) :
  2 ^ 56 <= v ->
  (ReadUvarint (NewReader ((PutUvarint v ++ rest) : BytesReader))).1
  = Return 0 (Some ErrUvarintOverflow).
Proof.
  intros Hv. unfold PutUvarint.
  destruct (PutUvarint_loop_continuations 8 9 v) as (bs & tl & Heq & Hlen & Hall);
    [lia | exact Hv |].
  rewrite Heq, <- app_assoc.
  apply ReadUvarint_eight_continuations; assumption.
Qed.

(** C1, the code at a conforming encoding. The value [2^63] takes ten
    groups, the last one with only its lowest bit set; [ReadUvarint] refuses
    it with [ErrUvarintOverflow], as it refuses the nine groups of [2^56]:
    its loop stops at [SIZE_INT64 = 8] bytes. *)
Theorem ReadUvarint_refuses_ten_groups :
  PutUvarint (2 ^ 63)
  = [x80; x80; x80; x80; x80; x80; x80; x80; x80; x01]
  /\ (ReadUvarint (NewReader (PutUvarint (2 ^ 63) : BytesReader))).1
     = Return 0 (Some ErrUvarintOverflow)
  /\ (ReadUvarint
        (NewReader ([x80; x80; x80; x80; x80; x80; x80; x80; x01] : BytesReader))).1
     = Return 0 (Some ErrUvarintOverflow).
Proof.
  split; [reflexivity|]. split.
  - rewrite <- (app_nil_r (PutUvarint (2 ^ 63))).
    apply ReadUvarint_PutUvarint_large. discriminate.
  - apply (ReadUvarint_eight_continuations
             [x80; x80; x80; x80; x80; x80; x80; x80] [x01]);
      [reflexivity | repeat constructor].
Qed.

(** C2, the code at the values where the round trip breaks: the encodings
    of [2^56] and of the largest [uint64] are not read back. *)
Theorem ReadUvarint_PutUvarint_breaks_at_2_56 :
  (ReadUvarint (NewReader (PutUvarint (2 ^ 56) : BytesReader))).1
  = Return 0 (Some ErrUvarintOverflow)
  /\ (ReadUvarint (NewReader (PutUvarint (2 ^ 64 - 1) : BytesReader))).1
     = Return 0 (Some ErrUvarintOverflow)
  /\ (ReadUvarint (NewReader (PutUvarint (2 ^ 56 - 1) : BytesReader))).1
     = Return (2 ^ 56 - 1) None.
Proof.
  split; [|split].
  - rewrite <- (app_nil_r (PutUvarint (2 ^ 56))).
    apply ReadUvarint_PutUvarint_large. discriminate.
  - rewrite <- (app_nil_r (PutUvarint (2 ^ 64 - 1))).
    apply ReadUvarint_PutUvarint_large. discriminate.
  - rewrite <- (app_nil_r (PutUvarint (2 ^ 56 - 1))).
    apply ReadUvarint_PutUvarint_small. split; [discriminate | reflexivity].
Qed.

(** * Further properties of the code *)

(** ** The reference reversal [reverseBytesOriginal] *)

Local Close Scope Z_scope.

Lemma bytes_Split_app (a b : list byte) :
  bytes_Split (a ++ DOT :: b) = bytes_Split a ++ bytes_Split b.
Proof.
  induction a as [|c a IH]; [reflexivity|].
  change ((c :: a) ++ DOT :: b) with (c :: (a ++ DOT :: b)).
  cbn [bytes_Split]. rewrite IH.
  destruct (is_dot c); [reflexivity|].
  pose proof (bytes_Split_nonempty a) as Hne.
  destruct (bytes_Split a) as [|p ps]; [congruence | reflexivity].
Qed.

Lemma bytes_Join_app (xs ys : list (list byte)) :
  xs <> [] -> ys <> [] ->
  bytes_Join (xs ++ ys) = bytes_Join xs ++ DOT :: bytes_Join ys.
Proof.
  induction xs as [|x xs IH]; intros Hx Hy; [congruence|].
  destruct xs as [|x' xs].
  - apply bytes_Join_cons. exact Hy.
  - change ((x :: x' :: xs) ++ ys) with (x :: ((x' :: xs) ++ ys)).
    rewrite (bytes_Join_cons x ((x' :: xs) ++ ys)) by (simpl; discriminate).
    rewrite IH by (auto; discriminate).
    rewrite (bytes_Join_cons x (x' :: xs)) by discriminate.
    rewrite <- app_assoc. reflexivity.
Qed.

Lemma bytes_Join_reverse_Permutation (ss : list (list byte)) :
  bytes_Join (reverse ss) ≡ₚ bytes_Join ss.
Proof.
  induction ss as [|s ss IH]; [reflexivity|].
  destruct ss as [|s' ss]; [reflexivity|].
  rewrite reverse_cons, bytes_Join_snoc
    by (apply reverse_nonempty; discriminate).
  rewrite (bytes_Join_cons s (s' :: ss)) by discriminate.
  rewrite IH.
  rewrite (Permutation_app_comm (bytes_Join (s' :: ss)) (DOT :: s)).
  cbn [app]. rewrite Permutation_middle. reflexivity.
Qed.

Lemma bytes_Split_dots (s : list byte) :
  Forall (fun c => is_dot c = true) s ->
  bytes_Split s = replicate (S (length s)) [].
Proof.
  induction 1 as [|c t Hc _ IH]; [reflexivity|].
  cbn [bytes_Split]. rewrite Hc, IH. reflexivity.
Qed.

(** X1. The pieces of the reference reversal of a path, cut at the
    separators, are the pieces of the path in the opposite order, each piece
    as it was; this holds for every path, with empty pieces (leading,
    trailing or doubled separators) kept in their places. *)
Theorem reverseBytesOriginal_pieces (target : list byte) :
  bytes_Split (reverseBytesOriginal target) = reverse (bytes_Split target).
Proof.
  rewrite reverseBytesOriginal_eq.
  apply bytes_Split_Join.
  - apply reverse_nonempty, bytes_Split_nonempty.
  - rewrite Forall_reverse. apply bytes_Split_dotless.
Qed.

(** X2. The reference reversal only moves bytes: its result is a
    permutation of the path, so it has the length of the path and as many
    separators. *)
Theorem reverseBytesOriginal_Permutation (target : list byte) :
  reverseBytesOriginal target ≡ₚ target
  /\ length (reverseBytesOriginal target) = length target
  /\ length (filter (fun c => is_dot c = true) (reverseBytesOriginal target))
     = length (filter (fun c => is_dot c = true) target).
Proof.
  assert (Hp : reverseBytesOriginal target ≡ₚ target).
  { rewrite reverseBytesOriginal_eq, bytes_Join_reverse_Permutation.
    rewrite bytes_Join_Split. reflexivity. }
  split; [exact Hp|]. split.
  - apply Permutation_length. exact Hp.
  - apply Permutation_length. rewrite Hp. reflexivity.
Qed.

(** X3. The reference reversal turns a path made of two parts around the
    separator between them: the reversal of [a.b] is the reversal of [b],
    the separator, and the reversal of [a], whatever separators [a] and [b]
    hold themselves. *)
Theorem reverseBytesOriginal_app (a b : list byte) :
  reverseBytesOriginal (a ++ DOT :: b)
  = reverseBytesOriginal b ++ DOT :: reverseBytesOriginal a.
Proof.
  rewrite !reverseBytesOriginal_eq, bytes_Split_app, reverse_app.
  apply bytes_Join_app; apply reverse_nonempty, bytes_Split_nonempty.
Qed.

(** X4. A path is left as it is by the reference reversal exactly when its
    list of pieces reads the same in both directions; so the empty path, a
    path without a separator and a path of separators only are unchanged. *)
Theorem reverseBytesOriginal_fixed (target : list byte) :
  (reverseBytesOriginal target = target
   <-> reverse (bytes_Split target) = bytes_Split target)
  /\ (dotless target -> reverseBytesOriginal target = target)
  /\ (Forall (fun c => is_dot c = true) target ->
      reverseBytesOriginal target = target).
Proof.
  assert (Hiff : reverseBytesOriginal target = target
                 <-> reverse (bytes_Split target) = bytes_Split target).
  { split; intros Heq.
    - rewrite <- Heq at 2. symmetry.
      rewrite reverseBytesOriginal_eq.
      apply bytes_Split_Join.
      + apply reverse_nonempty, bytes_Split_nonempty.
      + rewrite Forall_reverse. apply bytes_Split_dotless.
    - rewrite reverseBytesOriginal_eq, Heq. apply bytes_Join_Split. }
  split; [exact Hiff|]. split.
  - intros Hd. apply Hiff. rewrite bytes_Split_dotless_id by exact Hd.
    reflexivity.
  - intros Hdots. apply Hiff.
    rewrite (bytes_Split_dots target Hdots). apply reverse_replicate.
Qed.

Lemma reverseBytesOriginal_fixed_witness :
  reverseBytesOriginal ["x"; "x"]%byte = ["x"; "x"]%byte
  /\ reverseBytesOriginal ["."; "."]%byte = ["."; "."]%byte.
Proof.
  split.
  - apply (proj1 (proj2 (reverseBytesOriginal_fixed ["x"; "x"]%byte))).
    repeat constructor.
  - apply (proj2 (proj2 (reverseBytesOriginal_fixed ["."; "."]%byte))).
    repeat constructor.
Defined.

Local Open Scope Z_scope.

(** ** [ReadUvarint] on a stream in memory *)

Lemma land_0x7f_small (v : Z) : 0 <= v < 128 -> Z.land v 0x7f = v.
Proof.
  intros Hv. change 0x7f with (Z.ones 7). rewrite Z.land_ones by lia.
  apply Z.mod_small. change (2 ^ 7) with 128. lia.
Qed.

Lemma inserts_keeps_size {A : Type} (i : nat) (data buf0 : list A) :
  Z.of_nat (length buf0) = BUF_SIZE ->
  Z.of_nat (length (list_inserts i data buf0)) = BUF_SIZE.
Proof. intros Hbuf. rewrite length_inserts. exact Hbuf. Qed.

(** The loop of [ReadUvarint] over the continuation bytes [bs] of a stream
    in memory: it goes on after them with their groups gathered. *)
Lemma ReadUvarint_loop_groups (bs : list byte) :
  forall (k : nat) (i x s : Z) (rest buf0 : list byte),
    Forall continues bs ->
    0 <= i -> i + Z.of_nat (length bs) + Z.of_nat k = 8 -> s = 7 * i ->
    0 <= x < 2 ^ s ->
    Z.of_nat (length buf0) = BUF_SIZE ->
    exists buf1,
      Z.of_nat (length buf1) = BUF_SIZE
      /\ 0 <= x + uvarint_value bs * 2 ^ s < 2 ^ (s + 7 * Z.of_nat (length bs))
      /\ ReadUvarint_loop (length bs + k) i x s
           (mkReader ((bs ++ rest) : BytesReader) buf0)
         = ReadUvarint_loop k (i + Z.of_nat (length bs))
             (x + uvarint_value bs * 2 ^ s) (s + 7 * Z.of_nat (length bs))
             (mkReader (rest : BytesReader) buf1).
Proof.
  induction bs as [|b bs IH]; intros k i x s rest buf0 Hall Hi Hik Hs Hx Hbuf.
  - exists buf0. cbn [length uvarint_value app Nat.add].
    change (Z.of_nat 0) with 0.
    replace (x + 0 * 2 ^ s) with x by lia.
    replace (s + 7 * 0) with s by lia.
    replace (i + 0) with i by lia.
    split; [exact Hbuf|]. split; [exact Hx | reflexivity].
  - inversion Hall as [|? ? Hb Hbs]; subst.
    cbn [length app Nat.add] in *.
    rewrite (ReadUvarint_loop_step (length bs + k) i x (7 * i) _ _ _ _
               (wf_mkReader _ _ Hbuf) ltac:(lia) (BytesReader_Read_one _ _)).
    unfold continues in Hb. rewrite Hb.
    pose proof (land_0x7f_range (byte_val b)) as Hland.
    destruct (varint_group x (Z.land (byte_val b) 0x7f) (7 * i))
      as [Heq Hbound]; try lia.
    rewrite Heq.
    destruct (IH k (i + 1) (x + Z.land (byte_val b) 127 * 2 ^ (7 * i))
                (7 * i + 7) rest
                (list_inserts (Z.to_nat i) [b] buf0))
      as (buf1 & Hbuf1 & Hrange & Hloop); try assumption; try lia.
    { apply inserts_keeps_size. exact Hbuf. }
    assert (Hpow : 2 ^ (7 * i + 7) = 2 ^ (7 * i) * 128)
      by (rewrite Z.pow_add_r by lia; reflexivity).
    assert (Hval : x + Z.land (byte_val b) 127 * 2 ^ (7 * i)
                   + uvarint_value bs * 2 ^ (7 * i + 7)
                   = x + uvarint_value (b :: bs) * 2 ^ (7 * i)).
    { cbn [uvarint_value]. rewrite Hpow. ring. }
    exists buf1. split; [exact Hbuf1|].
    replace (7 * i + 7 * Z.of_nat (S (length bs)))
      with (7 * i + 7 + 7 * Z.of_nat (length bs)) by lia.
    replace (i + Z.of_nat (S (length bs)))
      with (i + 1 + Z.of_nat (length bs)) by lia.
    rewrite <- Hval. split; [exact Hrange | exact Hloop].
Qed.

(** The three ways the loop ends on a stream in memory, after the
    continuation bytes. *)
Lemma ReadUvarint_loop_last (k : nat) (i x s : Z) (b : byte)
    (rest buf0 : list byte) :
  0 <= i < 8 -> s = 7 * i -> 0 <= x < 2 ^ s ->
  byte_val b < 0x80 ->
  Z.of_nat (length buf0) = BUF_SIZE ->
  ReadUvarint_loop (S k) i x s (mkReader ((b :: rest) : BytesReader) buf0)
  = (Return (x + byte_val b * 2 ^ s) None,
     mkReader (rest : BytesReader) (list_inserts (Z.to_nat i) [b] buf0)).
Proof.
  intros Hi Hs Hx Hb Hbuf.
  rewrite (ReadUvarint_loop_step k i x s _ _ _ _
             (wf_mkReader _ _ Hbuf) Hi (BytesReader_Read_one _ _)).
  replace (byte_val b <? 0x80) with true by (symmetry; apply Z.ltb_lt; lia).
  pose proof (byte_val_range b) as Hrange.
  destruct (varint_group x (byte_val b) s) as [Heq _]; try lia.
  rewrite Heq. reflexivity.
Qed.

Lemma ReadUvarint_loop_end_of_stream (k : nat) (i x s : Z) (buf0 : list byte) :
  0 <= i < 8 ->
  Z.of_nat (length buf0) = BUF_SIZE ->
  ReadUvarint_loop (S k) i x s (mkReader ([] : BytesReader) buf0)
  = (Return 0 (Some io_EOF), mkReader ([] : BytesReader) buf0).
Proof.
  intros Hi Hbuf.
  assert (Hrd : io_Read (wrapped (mkReader ([] : BytesReader) buf0)) 1
                = ([], Some io_EOF, []))
    by reflexivity.
  rewrite (ReadUvarint_loop_step k i x s _ _ _ _
             (wf_mkReader _ _ Hbuf) Hi Hrd).
  reflexivity.
Qed.

(** What the encoder writes for a value below [2^(7 (k + 1))]: at most [k]
    continuation bytes and a last byte without the bit, standing for the
    value. *)
Lemma PutUvarint_loop_shape (k : nat) :
  forall (fuel : nat) (v : Z),
    (k <= fuel)%nat -> 0 <= v < 2 ^ (7 * Z.of_nat (S k)) ->
    exists bs b,
      PutUvarint_loop fuel v = bs ++ [b]
      /\ Forall continues bs /\ (length bs <= k)%nat
      /\ byte_val b < 0x80
      /\ uvarint_value (bs ++ [b]) = v.
Proof.
  assert (Hone : forall fuel v, 0 <= v < 128 ->
            PutUvarint_loop fuel v = [] ++ [byte_of_Z v]
            /\ byte_val (byte_of_Z v) < 0x80
            /\ uvarint_value ([] ++ [byte_of_Z v]) = v).
  { intros fuel v Hv.
    assert (Hbv : byte_val (byte_of_Z v) = v)
      by (rewrite byte_val_byte_of_Z; apply Z.mod_small; lia).
    split; [|split].
    - destruct fuel; [reflexivity|]. cbn [PutUvarint_loop].
      replace (0x80 <=? v) with false by (symmetry; apply Z.leb_gt; lia).
      reflexivity.
    - lia.
    - cbn [app uvarint_value]. rewrite Hbv, land_0x7f_small by lia. lia. }
  induction k as [|k IH]; intros fuel v Hfuel Hv.
  - change (2 ^ (7 * Z.of_nat 1)) with 128 in Hv.
    destruct (Hone fuel v Hv) as (Hput & Hb & Hval).
    exists [], (byte_of_Z v). repeat split; try assumption.
    + constructor.
    + cbn [length]. lia.
  - destruct (Z.lt_ge_cases v 128) as [Hsmall | Hbig].
    + destruct (Hone fuel v ltac:(lia)) as (Hput & Hb & Hval).
      exists [], (byte_of_Z v). repeat split; try assumption.
      * constructor.
      * cbn [length]. lia.
    + destruct fuel as [|fuel]; [lia|].
      assert (Hpow : 2 ^ (7 * Z.of_nat (S (S k)))
                     = 128 * 2 ^ (7 * Z.of_nat (S k))).
      { replace (7 * Z.of_nat (S (S k))) with (7 + 7 * Z.of_nat (S k)) by lia.
        rewrite Z.pow_add_r by lia. reflexivity. }
      destruct (IH fuel (Z.shiftr v 7)) as (bs & b & Hput & Hall & Hlen & Hb & Hval).
      { lia. }
      { rewrite Z.shiftr_div_pow2 by lia. change (2 ^ 7) with 128.
        split; [apply Z.div_pos; lia|].
        apply Z.div_lt_upper_bound; lia. }
      exists (byte_of_Z (Z.lor (byte_val (byte_of_Z v)) 0x80) :: bs), b.
      destruct (continuation_byte (byte_of_Z v)) as [Hcont Hlow].
      split; [|split; [|split; [|split]]].
      * cbn [PutUvarint_loop].
        replace (0x80 <=? v) with true by (symmetry; apply Z.leb_le; lia).
        rewrite Hput. reflexivity.
      * constructor; [exact Hcont | exact Hall].
      * cbn [length]. lia.
      * exact Hb.
      * change ((byte_of_Z (Z.lor (byte_val (byte_of_Z v)) 128) :: bs) ++ [b])
          with (byte_of_Z (Z.lor (byte_val (byte_of_Z v)) 128) :: (bs ++ [b])).
        cbn [uvarint_value]. rewrite Hval.
        change 127 with 0x7f. rewrite Hlow, byte_val_byte_of_Z.
        assert (Hmod : (v mod 256) mod 128 = v mod 128).
        { apply Z.mod_mod_divide. exists 2. reflexivity. }
        rewrite Hmod, Z.shiftr_div_pow2 by lia. change (2 ^ 7) with 128.
        pose proof (Z.div_mod v 128 ltac:(lia)) as Hdm. lia.
Qed.

Lemma uvarint_value_snoc (bs : list byte) (b : byte) :
  byte_val b < 0x80 ->
  uvarint_value (bs ++ [b])
  = uvarint_value bs + byte_val b * 2 ^ (7 * Z.of_nat (length bs)).
Proof.
  intros Hb. pose proof (byte_val_range b) as Hbr.
  induction bs as [|c bs IH].
  - cbn [app uvarint_value length]. change (Z.of_nat 0) with 0.
    rewrite land_0x7f_small by lia. change (2 ^ (7 * 0)) with 1. lia.
  - cbn [app uvarint_value length]. rewrite IH.
    replace (7 * Z.of_nat (S (length bs)))
      with (7 + 7 * Z.of_nat (length bs)) by lia.
    rewrite Z.pow_add_r by lia. change (2 ^ 7) with 128. ring.
Qed.

(** [ReadUvarint] over the groups of a varint at the front of a stream in
    memory. *)
Lemma ReadUvarint_bytes
    (r : Reader BytesReader) (bs : list byte) (b : byte) (rest : list byte) :
  wf_reader r ->
  wrapped r = bs ++ b :: rest ->
  Forall continues bs -> (length bs <= 7)%nat -> byte_val b < 0x80 ->
  exists r',
    ReadUvarint r = (Return (uvarint_value (bs ++ [b])) None, r')
    /\ wrapped r' = rest /\ wf_reader r'.
Proof.
  intros Hwf Hsrc Hall Hlen Hb. destruct r as [src buf0].
  cbn [wrapped] in Hsrc. subst src.
  assert (Hbuf : Z.of_nat (length buf0) = BUF_SIZE) by exact Hwf.
  unfold ReadUvarint. change (Z.to_nat SIZE_INT64) with 8%nat.
  destruct (ReadUvarint_loop_groups bs (8 - length bs) 0 0 0 (b :: rest) buf0)
    as (buf1 & Hbuf1 & Hrange & Hloop); try assumption; try lia.
  replace (length bs + (8 - length bs))%nat with 8%nat in Hloop by lia.
  change (2 ^ 0) with 1 in Hrange, Hloop.
  rewrite Z.mul_1_r, !Z.add_0_l in Hrange, Hloop.
  rewrite Hloop.
  destruct (8 - length bs)%nat as [|k] eqn:Hk; [lia|].
  rewrite ReadUvarint_loop_last; try assumption; try lia.
  eexists. split; [|split].
  - rewrite uvarint_value_snoc by exact Hb. reflexivity.
  - reflexivity.
  - apply wf_mkReader, inserts_keeps_size. exact Hbuf1.
Qed.

Lemma uvarint_value_range (bs : list byte) :
  0 <= uvarint_value bs < 2 ^ (7 * Z.of_nat (length bs)).
Proof.
  induction bs as [|b bs IH].
  - cbn. lia.
  - cbn [uvarint_value length].
    pose proof (land_0x7f_range (byte_val b)) as Hland.
    replace (7 * Z.of_nat (S (length bs)))
      with (7 + 7 * Z.of_nat (length bs)) by lia.
    rewrite Z.pow_add_r by lia. change (2 ^ 7) with 128. lia.
Qed.

(** X5. On a stream in memory that starts with at most seven continuation
    bytes and a byte without the continuation bit, [ReadUvarint] returns the
    value of these groups, [sum (b_i & 0x7f) * 128^i], a value below [2^56];
    it takes exactly these bytes from the stream and keeps its buffer. The
    encoding need not be the shortest one. *)
Theorem ReadUvarint_decodes_groups
    (r : Reader BytesReader) (bs : list byte) (b : byte) (rest : list byte) :
  wf_reader r ->
  wrapped r = bs ++ b :: rest ->
  Forall continues bs -> (length bs <= 7)%nat -> byte_val b < 0x80 ->
  exists r',
    ReadUvarint r = (Return (uvarint_value (bs ++ [b])) None, r')
    /\ wrapped r' = rest /\ wf_reader r'
    /\ 0 <= uvarint_value (bs ++ [b]) < 2 ^ 56.
Proof.
  intros Hwf Hsrc Hall Hlen Hb.
  destruct (ReadUvarint_bytes r bs b rest Hwf Hsrc Hall Hlen Hb)
    as (r' & Hrd & Hrest & Hwf').
  exists r'. split; [exact Hrd|]. split; [exact Hrest|]. split; [exact Hwf'|].
  pose proof (uvarint_value_range (bs ++ [b])) as Hrange.
  rewrite length_app in Hrange. cbn [length] in Hrange.
  assert (Hle : 2 ^ (7 * Z.of_nat (length bs + 1)) <= 2 ^ 56)
    by (apply Z.pow_le_mono_r; lia).
  lia.
Qed.

Lemma ReadUvarint_decodes_groups_witness :
  exists r',
    ReadUvarint (NewReader ([xac; x02; x07] : BytesReader))
    = (Return 300 None, r')
    /\ wrapped r' = [x07].
Proof.
  destruct (ReadUvarint_decodes_groups
              (NewReader ([xac; x02; x07] : BytesReader)) [xac] x02 [x07]
              (NewReader_wf _) eq_refl)
    as (r' & Hrd & Hsrc & _ & _).
  - repeat constructor.
  - cbn [length]. lia.
  - reflexivity.
  - exists r'. split; [exact Hrd | exact Hsrc].
Defined.

(** The encoding of a value below [2^56] at the front of a stream in
    memory is read back, and the stream is left after it. *)
Lemma ReadUvarint_PutUvarint_rest
    (r : Reader BytesReader) (v : Z) (rest : list byte) :
  wf_reader r ->
  wrapped r = PutUvarint v ++ rest ->
  0 <= v < 2 ^ 56 ->
  exists r',
    ReadUvarint r = (Return v None, r')
    /\ wrapped r' = rest /\ wf_reader r'.
Proof.
  intros Hwf Hsrc Hv. unfold PutUvarint in *.
  destruct (PutUvarint_loop_shape 7 9 v ltac:(lia) Hv)
    as (bs & b & Hput & Hall & Hlen & Hb & Hval).
  rewrite Hput, <- app_assoc in Hsrc. cbn [app] in Hsrc.
  destruct (ReadUvarint_bytes r bs b rest Hwf Hsrc Hall Hlen Hb)
    as (r' & Hrd & Hrest & Hwf').
  exists r'. rewrite Hval in Hrd. auto.
Qed.

(** X6. The round trip of a varint below [2^56] on a stream in memory: the
    encoding has one to eight bytes; it is read back as the value, exactly
    its bytes are taken from the stream, and what follows is left for the
    next read. *)
Theorem ReadUvarint_PutUvarint_consumes
    (r : Reader BytesReader) (v : Z) (rest : list byte) :
  wf_reader r ->
  wrapped r = PutUvarint v ++ rest ->
  0 <= v < 2 ^ 56 ->
  (1 <= length (PutUvarint v) <= 8)%nat
  /\ exists r',
       ReadUvarint r = (Return v None, r')
       /\ wrapped r' = rest /\ wf_reader r'.
Proof.
  intros Hwf Hsrc Hv. split.
  - unfold PutUvarint.
    destruct (PutUvarint_loop_shape 7 9 v ltac:(lia) Hv)
      as (bs & b & Hput & _ & Hlen & _).
    rewrite Hput, length_app. cbn [length]. lia.
  - apply ReadUvarint_PutUvarint_rest; assumption.
Qed.

Lemma ReadUvarint_PutUvarint_consumes_witness :
  exists r',
    ReadUvarint (NewReader ((PutUvarint 300 ++ [x07]) : BytesReader))
    = (Return 300 None, r')
    /\ wrapped r' = [x07].
Proof.
  destruct (ReadUvarint_PutUvarint_consumes
              (NewReader ((PutUvarint 300 ++ [x07]) : BytesReader)) 300 [x07]
              (NewReader_wf _) eq_refl)
    as (_ & r' & Hrd & Hsrc & _).
  - split; [discriminate | reflexivity].
  - exists r'. split; [exact Hrd | exact Hsrc].
Defined.

(** X7. A varint cut off by the end of the stream: when a stream in memory
    holds nothing but continuation bytes, fewer than eight of them (or
    nothing at all), [ReadUvarint] fails with [io.EOF], returns the value 0
    and leaves the stream empty. *)
Theorem ReadUvarint_truncated (r : Reader BytesReader) (bs : list byte) :
  wf_reader r ->
  wrapped r = bs ->
  Forall continues bs -> (length bs <= 7)%nat ->
  exists r',
    ReadUvarint r = (Return 0 (Some io_EOF), r')
    /\ wrapped r' = [] /\ wf_reader r'.
Proof.
  intros Hwf Hsrc Hall Hlen. destruct r as [src buf0].
  cbn [wrapped] in Hsrc. subst src.
  assert (Hbuf : Z.of_nat (length buf0) = BUF_SIZE) by exact Hwf.
  unfold ReadUvarint. change (Z.to_nat SIZE_INT64) with 8%nat.
  destruct (ReadUvarint_loop_groups bs (8 - length bs) 0 0 0 [] buf0)
    as (buf1 & Hbuf1 & _ & Hloop); try assumption; try lia.
  replace (length bs + (8 - length bs))%nat with 8%nat in Hloop by lia.
  rewrite app_nil_r in Hloop. rewrite Hloop.
  destruct (8 - length bs)%nat as [|k] eqn:Hk; [lia|].
  rewrite ReadUvarint_loop_end_of_stream by (lia || exact Hbuf1).
  eexists. split; [reflexivity|]. split; [reflexivity|].
  apply wf_mkReader. exact Hbuf1.
Qed.

Lemma ReadUvarint_truncated_witness :
  exists r',
    ReadUvarint (NewReader ([xac; x80] : BytesReader))
    = (Return 0 (Some io_EOF), r')
    /\ wrapped r' = [].
Proof.
  destruct (ReadUvarint_truncated (NewReader ([xac; x80] : BytesReader))
              [xac; x80] (NewReader_wf _) eq_refl)
    as (r' & Hrd & Hsrc & _).
  - repeat constructor.
  - cbn [length]. lia.
  - exists r'. split; [exact Hrd | exact Hsrc].
Defined.

(** X8. [ReadUvarint] gives up after eight bytes: on a stream in memory
    that starts with eight continuation bytes it fails with
    [ErrUvarintOverflow] and the value 0, having taken exactly these eight
    bytes; the bytes after them, the rest of the varint included, stay in
    the stream. *)
Theorem ReadUvarint_overflow_after_eight
    (r : Reader BytesReader) (bs rest : list byte) :
  wf_reader r ->
  wrapped r = bs ++ rest ->
  Forall continues bs -> length bs = 8%nat ->
  exists r',
    ReadUvarint r = (Return 0 (Some ErrUvarintOverflow), r')
    /\ wrapped r' = rest /\ wf_reader r'.
Proof.
  intros Hwf Hsrc Hall Hlen. destruct r as [src buf0].
  cbn [wrapped] in Hsrc. subst src.
  assert (Hbuf : Z.of_nat (length buf0) = BUF_SIZE) by exact Hwf.
  unfold ReadUvarint. change (Z.to_nat SIZE_INT64) with 8%nat.
  destruct (ReadUvarint_loop_groups bs 0 0 0 0 rest buf0)
    as (buf1 & Hbuf1 & _ & Hloop); try assumption; try lia.
  rewrite Hlen in Hloop. cbn [Nat.add] in Hloop. rewrite Hloop.
  cbn [ReadUvarint_loop].
  eexists. split; [reflexivity|]. split; [reflexivity|].
  apply wf_mkReader. exact Hbuf1.
Qed.

Lemma ReadUvarint_overflow_after_eight_witness :
  exists r',
    ReadUvarint
      (NewReader ([x80; x80; x80; x80; x80; x80; x80; x80; x01; x07]
                  : BytesReader))
    = (Return 0 (Some ErrUvarintOverflow), r')
    /\ wrapped r' = [x01; x07].
Proof.
  destruct (ReadUvarint_overflow_after_eight
              (NewReader ([x80; x80; x80; x80; x80; x80; x80; x80; x01; x07]
                          : BytesReader))
              [x80; x80; x80; x80; x80; x80; x80; x80] [x01; x07]
              (NewReader_wf _) eq_refl)
    as (r' & Hrd & Hsrc & _).
  - repeat constructor.
  - reflexivity.
  - exists r'. split; [exact Hrd | exact Hsrc].
Defined.

(** ** What holds for every source *)

Lemma LittleEndian_Uint16_some (b : list byte) :
  Z.of_nat (length b) = SIZE_INT16 -> LittleEndian_Uint16 b <> None.
Proof.
  destruct b as [|b0 [|b1 t]]; cbn [length LittleEndian_Uint16];
    unfold SIZE_INT16; intros Hlen; (lia || discriminate).
Qed.

Lemma LittleEndian_Uint32_some (b : list byte) :
  Z.of_nat (length b) = SIZE_INT32 -> LittleEndian_Uint32 b <> None.
Proof.
  destruct b as [|b0 [|b1 [|b2 [|b3 t]]]]; cbn [length LittleEndian_Uint32];
    unfold SIZE_INT32; intros Hlen; (lia || discriminate).
Qed.

Lemma LittleEndian_Uint64_some (b : list byte) :
  Z.of_nat (length b) = SIZE_INT64 -> LittleEndian_Uint64 b <> None.
Proof.
  destruct b as [|b0 [|b1 [|b2 [|b3 [|b4 [|b5 [|b6 [|b7 t]]]]]]]];
    cbn [length LittleEndian_Uint64];
    unfold SIZE_INT64; intros Hlen; (lia || discriminate).
Qed.

Section EverySource.
Context {Src : Type} `{IOReader Src}.

(** What [read] gives when the slice [r.buf[0:want]] exists: no panic; with
    an error no bytes; without one, [want] bytes. *)
Lemma read_outcome (r : Reader Src) (want : Z) :
  wf_reader r -> 0 <= want <= BUF_SIZE ->
  match (read r want).1 with
  | Panic _ => False
  | Return b (Some _) => b = []
  | Return b None => Z.of_nat (length b) = want
  end.
Proof.
  intros Hwf Hwant. unfold read.
  replace ((want <? 0) || (cap_buf r <? want)) with false
    by (symmetry; apply orb_false_iff; split; apply Z.ltb_ge;
        rewrite ?Hwf; lia).
  unfold wrapped_Read.
  destruct (io_Read (wrapped r) (Z.to_nat want)) as [[data err] s'].
  destruct err as [e|]; [reflexivity|].
  destruct (Z.of_nat (length data) <? want); [reflexivity|].
  cbn [fst buf]. rewrite length_take, length_inserts.
  unfold wf_reader, cap_buf in Hwf. lia.
Qed.

Lemma read_fixed_no_panic (size : Z) (conv : list byte -> option Z)
    (r : Reader Src) (p : panic) :
  wf_reader r -> 0 <= size <= BUF_SIZE ->
  (forall b, Z.of_nat (length b) = size -> conv b <> None) ->
  (read_fixed size conv r).1 <> Panic p.
Proof.
  intros Hwf Hsize Hconv. unfold read_fixed.
  pose proof (read_outcome r size Hwf Hsize) as Hout.
  destruct (read r size) as [[b [e|]|p'] r']; cbn [fst] in *;
    try discriminate; try contradiction.
  specialize (Hconv b Hout).
  destruct (conv b); [discriminate | congruence].
Qed.

Lemma read_fixed_wf (size : Z) (conv : list byte -> option Z) (r : Reader Src) :
  wf_reader r -> wf_reader (read_fixed size conv r).2.
Proof.
  intros Hwf. unfold read_fixed.
  pose proof (read_wf r size Hwf) as Hwf'.
  destruct (read r size) as [[b [e|]|p'] r']; cbn [snd] in *; try exact Hwf'.
  destruct (conv b); exact Hwf'.
Qed.

Lemma ReadStringBytes_wf (r : Reader Src) :
  wf_reader r -> wf_reader (ReadStringBytes r).2.
Proof.
  intros Hwf. unfold ReadStringBytes.
  destruct (ReadUvarint_outcome r Hwf) as [Hwf1 _].
  destruct (ReadUvarint r) as [[u [e|]|p] r1]; cbn [snd] in *; try exact Hwf1.
  destruct (u =? 0); [exact Hwf1|].
  pose proof (read_wf r1 (int_of_uint64 u) Hwf1) as Hwf2.
  destruct (read r1 (int_of_uint64 u)) as [[b [e|]|p] r2]; exact Hwf2.
Qed.

Lemma ReadString_wf (r : Reader Src) :
  wf_reader r -> wf_reader (ReadString r).2.
Proof.
  intros Hwf. unfold ReadString.
  pose proof (ReadStringBytes_wf r Hwf) as Hwf'.
  destruct (ReadStringBytes r) as [[b [e|]|p] r']; exact Hwf'.
Qed.

Lemma ReadStringList_loop_wf (k : nat) :
  forall (i : Z) (sList : list (list byte)) (r : Reader Src),
    wf_reader r -> wf_reader (ReadStringList_loop k i sList r).2.
Proof.
  induction k as [|k IH]; intros i sList r Hwf; [exact Hwf|].
  cbn [ReadStringList_loop].
  pose proof (ReadString_wf r Hwf) as Hwf'.
  destruct (ReadString r) as [[s [e|]|p] r']; cbn [snd] in *; try exact Hwf'.
  apply IH. exact Hwf'.
Qed.

Lemma ReadStringList_wf (r : Reader Src) :
  wf_reader r -> wf_reader (ReadStringList r).2.
Proof.
  intros Hwf. unfold ReadStringList.
  destruct (ReadUvarint_outcome r Hwf) as [Hwf1 _].
  destruct (ReadUvarint r) as [[u [e|]|p] r1]; cbn [snd] in *; try exact Hwf1.
  destruct (u =? 0); [exact Hwf1|].
  destruct (int_of_uint64 u <? 0); [exact Hwf1|].
  apply ReadStringList_loop_wf. exact Hwf1.
Qed.




(** X9. On a reader made by [NewReader], whatever the source does, the
    fixed-size reads [ReadUint8/16/32/64], [ReadFloat64] and [ReadDate] and
    the varint read [ReadUvarint] never panic: each returns a value and an
    error or none. *)
Theorem fixed_reads_never_panic (r : Reader Src) (p : panic) :
  wf_reader r ->
  (forall size rd, In (size, rd) uint_reads -> (rd r).1 <> Panic p)
  /\ (ReadFloat64 r).1 <> Panic p
  /\ (ReadDate r).1 <> Panic p
  /\ (ReadUvarint r).1 <> Panic p.
Proof.
  intros Hwf.
  assert (H16 : (ReadUint16 r).1 <> Panic p).
  { apply read_fixed_no_panic; [exact Hwf | unfold SIZE_INT16, BUF_SIZE; lia |].
    apply LittleEndian_Uint16_some. }
  assert (H64 : (ReadUint64 r).1 <> Panic p).
  { apply read_fixed_no_panic; [exact Hwf | unfold SIZE_INT64, BUF_SIZE; lia |].
    apply LittleEndian_Uint64_some. }
  split; [|split; [|split]].
  - intros size rd Hin. cbn in Hin.
    destruct Hin as [Heq | [Heq | [Heq | [Heq | []]]]];
      injection Heq as <- <-.
    + rewrite ReadUint8_read_fixed.
      apply read_fixed_no_panic; [exact Hwf | unfold SIZE_INT8, BUF_SIZE; lia |].
      intros [|b0 t]; cbn [length]; unfold SIZE_INT8; intros Hlen;
        [lia | discriminate].
    + exact H16.
    + apply read_fixed_no_panic; [exact Hwf | unfold SIZE_INT32, BUF_SIZE; lia |].
      apply LittleEndian_Uint32_some.
    + exact H64.
  - unfold ReadUint64, read_fixed in H64. unfold ReadFloat64.
    destruct (read r SIZE_INT64) as [[b [e|]|p'] r']; cbn [fst] in *;
      try discriminate.
    + destruct (LittleEndian_Uint64 b); [discriminate|].
      intros [= <-]. apply H64. reflexivity.
    + intros [= <-]. apply H64. reflexivity.
  - unfold ReadDate.
    destruct (ReadUint16 r) as [[t [e|]|p'] r']; cbn [fst] in *;
      try discriminate.
    intros [= <-]. apply H16. reflexivity.
  - destruct (ReadUvarint_outcome r Hwf) as [_ Hout].
    destruct (ReadUvarint r) as [[u [e|]|p'] r']; cbn [fst] in *;
      try discriminate; contradiction.
Qed.

(** X10. The scratch buffer keeps its 65536 bytes: every operation of the
    reader, whatever it returns (a value, an error or a panic) and whatever
    the source does, leaves a reader whose buffer has the size [NewReader]
    gave it. *)
Theorem every_read_keeps_the_buffer (r : Reader Src) :
  wf_reader r ->
  (forall want, wf_reader (read r want).2)
  /\ (forall size rd, In (size, rd) uint_reads -> wf_reader (rd r).2)
  /\ wf_reader (ReadFloat64 r).2
  /\ wf_reader (ReadDate r).2
  /\ wf_reader (ReadUvarint r).2
  /\ wf_reader (ReadStringBytes r).2
  /\ wf_reader (ReadString r).2
  /\ wf_reader (ReadStringList r).2.
Proof.
  intros Hwf.
  split; [intros want; apply read_wf; exact Hwf|].
  split.
  { intros size rd Hin. cbn in Hin.
    destruct Hin as [Heq | [Heq | [Heq | [Heq | []]]]];
      injection Heq as <- <-;
      rewrite ?ReadUint8_read_fixed; apply read_fixed_wf; exact Hwf. }
  split.
  { unfold ReadFloat64. pose proof (read_wf r SIZE_INT64 Hwf) as Hwf'.
    destruct (read r SIZE_INT64) as [[b [e|]|p'] r']; cbn [snd] in *;
      try exact Hwf'.
    destruct (LittleEndian_Uint64 b); exact Hwf'. }
  split.
  { unfold ReadDate.
    pose proof (read_fixed_wf SIZE_INT16 LittleEndian_Uint16 r Hwf) as Hwf'.
    fold ReadUint16 in Hwf'.
    destruct (ReadUint16 r) as [[t [e|]|p'] r']; exact Hwf'. }
  split; [apply ReadUvarint_outcome; exact Hwf|].
  split; [apply ReadStringBytes_wf; exact Hwf|].
  split; [apply ReadString_wf; exact Hwf|].
  apply ReadStringList_wf. exact Hwf.
Qed.


End EverySource.

Lemma fixed_reads_never_panic_witness :
  (ReadUint32 (NewReader chunks_1_2)).1 <> Panic IndexOutOfRange
  /\ (ReadUvarint (NewReader (Failing 7))).1 <> Panic SliceBoundsOutOfRange.
Proof.
  destruct (fixed_reads_never_panic (NewReader chunks_1_2) IndexOutOfRange
              (NewReader_wf _)) as (Huint & _).
  destruct (fixed_reads_never_panic (NewReader (Failing 7))
              SliceBoundsOutOfRange (NewReader_wf _)) as (_ & _ & _ & Hvar).
  split; [|exact Hvar].
  exact (Huint SIZE_INT32 ReadUint32
           (or_intror (or_intror (or_introl eq_refl)))).
Defined.

Lemma every_read_keeps_the_buffer_witness :
  wf_reader (ReadStringList (NewReader stream_list_cut)).2
  /\ wf_reader (ReadString (NewReader stream_oversize)).2.
Proof.
  destruct (every_read_keeps_the_buffer (NewReader stream_list_cut)
              (NewReader_wf _)) as (_ & _ & _ & _ & _ & _ & _ & Hlist).
  destruct (every_read_keeps_the_buffer (NewReader stream_oversize)
              (NewReader_wf _)) as (_ & _ & _ & _ & _ & _ & Hstr & _).
  split; [exact Hlist | exact Hstr].
Defined.


(** ** Strings and lists of strings on a stream in memory *)

Lemma int_of_uint64_small (u : Z) : 0 <= u < 2 ^ 63 -> int_of_uint64 u = u.
Proof.
  intros Hu. unfold int_of_uint64.
  replace (u <? 2 ^ 63) with true; [reflexivity|].
  symmetry. apply Z.ltb_lt. lia.
Qed.

Lemma BytesReader_Read_front (s rest : list byte) :
  s <> [] ->
  io_Read ((s ++ rest) : BytesReader) (length s) = (s, None, rest).
Proof.
  intros Hne. destruct s as [|c s]; [congruence|].
  change (io_Read (((c :: s) ++ rest) : BytesReader) (length (c :: s)))
    with (take (length (c :: s)) ((c :: s) ++ rest), @None error,
          drop (length (c :: s)) ((c :: s) ++ rest)).
  rewrite take_app_length, drop_app_length. reflexivity.
Qed.

(** [ReadStringBytes] on a string laid out at the front of a stream in
    memory. *)
Lemma ReadStringBytes_encoded
    (r : Reader BytesReader) (s rest : list byte) :
  wf_reader r ->
  wrapped r = encode_string s ++ rest ->
  Z.of_nat (length s) <= BUF_SIZE ->
  exists r',
    ReadStringBytes r = (Return s None, r')
    /\ wrapped r' = rest /\ wf_reader r'.
Proof.
  intros Hwf Hsrc Hlen. unfold encode_string in Hsrc.
  rewrite <- app_assoc in Hsrc.
  assert (Hsmall : 0 <= Z.of_nat (length s) < 2 ^ 56).
  { assert (BUF_SIZE < 2 ^ 56) by reflexivity. lia. }
  destruct (ReadUvarint_PutUvarint_rest r _ _ Hwf Hsrc Hsmall)
    as (r1 & Hvar & Hsrc1 & Hwf1).
  unfold ReadStringBytes. rewrite Hvar.
  destruct (Z.of_nat (length s) =? 0) eqn:Hzero.
  - apply Z.eqb_eq in Hzero.
    assert (s = []) by (destruct s; [reflexivity | cbn [length] in Hzero; lia]).
    subst s. exists r1. auto.
  - apply Z.eqb_neq in Hzero.
    assert (Hne : s <> []) by (intros ->; apply Hzero; reflexivity).
    rewrite int_of_uint64_small
      by (assert (2 ^ 56 < 2 ^ 63) by reflexivity; lia).
    assert (Hrd : io_Read (wrapped r1) (Z.to_nat (Z.of_nat (length s)))
                  = (s, None, rest)).
    { rewrite Hsrc1, Nat2Z.id. apply BytesReader_Read_front. exact Hne. }
    rewrite (read_full r1 _ s rest) by (rewrite ?Hwf1; lia || exact Hrd).
    eexists. split; [reflexivity|]. split; [reflexivity|].
    apply wf_mkReader, inserts_keeps_size. exact Hwf1.
Qed.



Section ListLoop.
Context {Src : Type} `{IOReader Src}.


End ListLoop.

(** X12. The round trip of a string on a stream in memory: when the stream
    starts with the length of a string as a varint and its bytes, and the
    string has at most 65536 bytes, [ReadStringBytes] and [ReadString]
    return the string and leave the stream right after it. The empty string
    is one byte, the length 0, and nothing more is read for it. *)
Theorem ReadString_round_trip
    (r : Reader BytesReader) (s rest : list byte) :
  wf_reader r ->
  wrapped r = encode_string s ++ rest ->
  Z.of_nat (length s) <= BUF_SIZE ->
  (exists r',
     ReadStringBytes r = (Return s None, r')
     /\ ReadString r = (Return s None, r')
     /\ wrapped r' = rest /\ wf_reader r')
  /\ (s = [] -> encode_string s = [x00]).
Proof.
  intros Hwf Hsrc Hlen. split.
  - destruct (ReadStringBytes_encoded r s rest Hwf Hsrc Hlen)
      as (r' & Hsb & Hrest & Hwf').
    exists r'. split; [exact Hsb|]. split; [|auto].
    unfold ReadString. rewrite Hsb. reflexivity.
  - intros ->. reflexivity.
Qed.

Lemma ReadString_round_trip_witness :
  exists r',
    ReadString
      (NewReader ((encode_string ["a"; "b"]%byte ++ [x07]) : BytesReader))
    = (Return ["a"; "b"]%byte None, r')
    /\ wrapped r' = [x07].
Proof.
  destruct (ReadString_round_trip
              (NewReader ((encode_string ["a"; "b"]%byte ++ [x07]) : BytesReader))
              ["a"; "b"]%byte [x07] (NewReader_wf _) eq_refl)
    as ((r' & _ & Hrd & Hsrc & _) & _).
  - cbn [length]. unfold BUF_SIZE. lia.
  - exists r'. split; [exact Hrd | exact Hsrc].
Defined.



(** ** The bytes [ReadStringBytes] returns and the scratch buffer *)

Lemma take_length_take {A : Type} (n : nat) (l : list A) :
  take (length (take n l)) l = take n l.
Proof.
  rewrite length_take. destruct (Nat.le_ge_cases n (length l)) as [Hle | Hge].
  - rewrite Nat.min_l by exact Hle. reflexivity.
  - rewrite Nat.min_r by exact Hge.
    rewrite !take_ge by lia. reflexivity.
Qed.

Lemma take_overwritten {A : Type} (n : nat) (d l : list A) :
  take n (d ++ drop (length d) l) = take n (d ++ drop (length d) (take n l)).
Proof.
  rewrite !take_app. f_equal.
  rewrite !take_drop_commute.
  destruct (Nat.le_ge_cases (length d) n) as [Hle | Hge].
  - replace (length d + (n - length d))%nat with n by lia.
    rewrite take_take, Nat.min_id. reflexivity.
  - replace (length d + (n - length d))%nat with (length d) by lia.
    rewrite take_take, Nat.min_r by lia.
    rewrite !drop_ge by (rewrite length_take; lia). reflexivity.
Qed.

Section Aliasing.
Context {Src : Type} `{IOReader Src}.

(** A slice returned by [read] is the front of the buffer. *)
Lemma read_is_front (r r' : Reader Src) (want : Z) (b : list byte) :
  read r want = (Return b None, r') -> take (length b) (buf r') = b.
Proof.
  unfold read.
  destruct ((want <? 0) || (cap_buf r <? want)); [discriminate|].
  destruct (wrapped_Read r 0 (Z.to_nat want)) as [[data [e|]] r1];
    [discriminate|].
  destruct (Z.of_nat (length data) <? want); [discriminate|].
  intros [= <- <-]. apply take_length_take.
Qed.

(** The buffer after a [read] that returned the bytes [d]: they stand at
    its front, the rest is as before. *)
Lemma read_buffer (r r' : Reader Src) (want : Z) (d : list byte) :
  read r want = (Return d None, r') ->
  buf r' = d ++ drop (length d) (buf r).
Proof.
  unfold read.
  destruct ((want <? 0) || (cap_buf r <? want)) eqn:Hpanic; [discriminate|].
  apply orb_false_iff in Hpanic. destruct Hpanic as [Hneg Hcap].
  apply Z.ltb_ge in Hneg, Hcap. unfold cap_buf in Hcap.
  unfold wrapped_Read.
  pose proof (io_Read_len (wrapped r) (Z.to_nat want)) as Hlen.
  destruct (io_Read (wrapped r) (Z.to_nat want)) as [[data [e|]] s'];
    [discriminate|].
  cbn [fst] in Hlen.
  destruct (Z.of_nat (length data) <? want) eqn:Hshort; [discriminate|].
  apply Z.ltb_ge in Hshort.
  intros [= <- <-]. cbn [buf].
  assert (Hdata : Z.to_nat want = length data) by lia.
  assert (Hbuf : list_inserts (Z.to_nat 0) data (buf r)
                 = data ++ drop (length data) (buf r)).
  { change (Z.to_nat 0) with 0%nat.
    rewrite <- (take_drop (length data) (buf r)) at 1.
    apply list_inserts_0_r. rewrite length_take. lia. }
  rewrite Hbuf, Hdata, take_app_length. reflexivity.
Qed.

(** X14. The bytes [ReadStringBytes] returns are not a copy: they are the
    front of the scratch buffer, [r.buf[:n]]. The next [read] that succeeds
    writes its bytes [d] over them, so that the slice returned before then
    shows [d] in its first [len(d)] places (all of it, when [d] is as long
    or longer). *)
Theorem ReadStringBytes_aliases_buffer (r r1 : Reader Src) (b : list byte) :
  wf_reader r ->
  ReadStringBytes r = (Return b None, r1) ->
  take (length b) (buf r1) = b
  /\ Z.of_nat (length b) <= BUF_SIZE
  /\ forall (want : Z) (d : list byte) (r2 : Reader Src),
       read r1 want = (Return d None, r2) ->
       take (length b) (buf r2) = take (length b) (d ++ drop (length d) b).
Proof.
  intros Hwf Hsb.
  assert (Hfront : take (length b) (buf r1) = b).
  { unfold ReadStringBytes in Hsb.
    destruct (ReadUvarint r) as [[u [e|]|p] r0]; try discriminate.
    destruct (u =? 0); [injection Hsb as <- <-; reflexivity|].
    destruct (read r0 (int_of_uint64 u)) as [[b' [e|]|p] r'] eqn:Hread;
      try discriminate.
    injection Hsb as <- <-. eapply read_is_front. exact Hread. }
  pose proof (ReadStringBytes_wf r Hwf) as Hwf1. rewrite Hsb in Hwf1.
  cbn [snd] in Hwf1.
  split; [exact Hfront|]. split.
  - rewrite <- Hfront, length_take.
    unfold wf_reader, cap_buf in Hwf1. lia.
  - intros want d r2 Hread.
    rewrite (read_buffer r1 r2 want d Hread).
    rewrite take_overwritten, Hfront. reflexivity.
Qed.

(** X15. A source may report an error together with bytes, as the contract
    of [io.Reader] allows. The reader then returns the error alone: [read]
    and the fixed-size reads drop the bytes even when all the bytes asked
    for have come, and [ReadUvarint] drops the byte it has got. The bytes
    are in the buffer, the source has moved on. *)
Theorem error_with_data_is_an_error
    (r : Reader Src) (n : nat) (data : list byte) (e : error) (s' : Src) :
  wf_reader r ->
  Z.of_nat n <= BUF_SIZE ->
  io_Read (wrapped r) n = (data, Some e, s') ->
  let r' := mkReader s' (list_inserts 0 data (buf r)) in
  read r (Z.of_nat n) = (Return [] (Some e), r')
  /\ (forall rd, In (Z.of_nat n, rd) uint_reads ->
        rd r = (Return 0 (Some e), r'))
  /\ (n = 1%nat -> ReadUvarint r = (Return 0 (Some e), r'))
  /\ take (length data) (buf r') = data.
Proof.
  intros Hwf Hn Hrd r'.
  assert (Hcap : 0 <= Z.of_nat n <= cap_buf r) by (rewrite Hwf; lia).
  assert (Hrd' : io_Read (wrapped r) (Z.to_nat (Z.of_nat n))
                 = (data, Some e, s')) by (rewrite Nat2Z.id; exact Hrd).
  split; [|split; [|split]].
  - apply read_error with (data := data); assumption.
  - intros rd Hin.
    destruct (uint_reads_shape _ rd Hin) as (Hsize & conv & Heq & _).
    rewrite Heq. apply read_fixed_error with (data := data); assumption.
  - intros ->. unfold ReadUvarint. change (Z.to_nat SIZE_INT64) with 8%nat.
    rewrite (ReadUvarint_loop_step 7 0 0 0 r data (Some e) s' Hwf ltac:(lia) Hrd).
    reflexivity.
  - unfold r'. cbn [buf]. apply take_list_inserts_0.
    pose proof (io_Read_len (wrapped r) n) as Hlen. rewrite Hrd in Hlen.
    cbn [fst] in Hlen. unfold cap_buf in Hcap. lia.
Qed.

End Aliasing.

Lemma ReadStringBytes_aliases_buffer_witness :
  exists r1,
    ReadStringBytes (NewReader stream_ab_c)
    = (Return ["a"; "b"]%byte None, r1)
    /\ take 2 (buf r1) = ["a"; "b"]%byte.
Proof.
  assert (Hval : (ReadStringBytes (NewReader stream_ab_c)).1
                 = Return ["a"; "b"]%byte None)
    by (vm_compute; reflexivity).
  assert (Hsb : ReadStringBytes (NewReader stream_ab_c)
                = (Return ["a"; "b"]%byte None,
                   (ReadStringBytes (NewReader stream_ab_c)).2))
    by (rewrite <- Hval; apply surjective_pairing).
  destruct (ReadStringBytes_aliases_buffer (NewReader stream_ab_c) _ _
              (NewReader_wf _) Hsb)
    as (Hfront & _ & _).
  exists (ReadStringBytes (NewReader stream_ab_c)).2.
  split; [exact Hsb | exact Hfront].
Defined.

Lemma error_with_data_is_an_error_witness :
  ReadUint16 (NewReader stream_eager_1_2)
  = (Return 0 (Some io_EOF),
     mkReader (EagerEOF [])
       (list_inserts 0 [x01; x02] (buf (NewReader stream_eager_1_2)))).
Proof.
  assert (Hn : Z.of_nat 2 <= BUF_SIZE) by (unfold BUF_SIZE; lia).
  assert (Hrd : io_Read (wrapped (NewReader stream_eager_1_2)) 2
                = ([x01; x02], Some io_EOF, EagerEOF []))
    by reflexivity.
  destruct (error_with_data_is_an_error (NewReader stream_eager_1_2) 2
              [x01; x02] io_EOF (EagerEOF [])
              (NewReader_wf _) Hn Hrd) as (_ & Huint & _ & _).
  exact (Huint ReadUint16 (or_intror (or_introl eq_refl))).
Defined.

(** ** [ReadFloat64] and the bytes [ReadUvarint] takes *)

Section Float.
Context {Src : Type} `{IOReader Src}.

(** X16. [ReadFloat64] is [ReadUint64] followed by [math.Float64frombits]
    in every outcome: the same single [Read] of eight bytes, the same
    reader left, the same error or panic; the value is the float whose bit
    pattern is the little-endian number of the eight bytes, and with an
    error it is the float 0, of bit pattern 0. *)
Theorem ReadFloat64_is_ReadUint64_bits (r : Reader Src) :
  ReadFloat64 r
  = match ReadUint64 r with
    | (Return v err, r') => (Return (Float64frombits v) err, r')
    | (Panic p, r') => (Panic p, r')
    end
  /\ forall data s',
       wf_reader r ->
       io_Read (wrapped r) (Z.to_nat SIZE_INT64) = (data, None, s') ->
       Z.of_nat (length data) = SIZE_INT64 ->
       ReadFloat64 r
       = (Return (Float64frombits (le_sum data)) None,
          mkReader s' (list_inserts 0 data (buf r))).
Proof.
  assert (Heq : ReadFloat64 r
                = match ReadUint64 r with
                  | (Return v err, r') => (Return (Float64frombits v) err, r')
                  | (Panic p, r') => (Panic p, r')
                  end).
  { unfold ReadFloat64, ReadUint64, read_fixed.
    destruct (read r SIZE_INT64) as [[b [e|]|p] r']; try reflexivity.
    destruct (LittleEndian_Uint64 b); reflexivity. }
  split; [exact Heq|].
  intros data s' Hwf Hrd Hlen. rewrite Heq.
  unfold ReadUint64.
  rewrite (read_fixed_full SIZE_INT64 LittleEndian_Uint64 r data s'
             (le_sum data)); try assumption.
  - reflexivity.
  - rewrite Hwf. unfold SIZE_INT64, BUF_SIZE. lia.
  - destruct data as [|b0 [|b1 [|b2 [|b3 [|b4 [|b5 [|b6 [|b7 [|b8 t]]]]]]]]];
      try (exfalso; cbn [length] in Hlen; unfold SIZE_INT64 in Hlen; lia).
    apply LittleEndian_Uint64_le_sum.
Qed.

End Float.

Lemma ReadFloat64_is_ReadUint64_bits_witness :
  ReadFloat64
    (NewReader ([x00; x00; x00; x00; x00; x00; xf0; x3f; x07] : BytesReader))
  = (Return (Float64frombits 4607182418800017408) None,
     mkReader ([x07] : BytesReader)
       (list_inserts 0 [x00; x00; x00; x00; x00; x00; xf0; x3f]
          (buf (NewReader
                  ([x00; x00; x00; x00; x00; x00; xf0; x3f; x07]
                   : BytesReader))))).
Proof.
  destruct (ReadFloat64_is_ReadUint64_bits
              (NewReader
                 ([x00; x00; x00; x00; x00; x00; xf0; x3f; x07] : BytesReader)))
    as (_ & Hbits).
  exact (Hbits [x00; x00; x00; x00; x00; x00; xf0; x3f] [x07]
           (NewReader_wf _) eq_refl eq_refl).
Defined.

(** The loop of [ReadUvarint] takes at most one byte a turn from a stream
    in memory. *)
Lemma ReadUvarint_loop_takes (k : nat) :
  forall (i x s : Z) (src buf0 : list byte),
    0 <= i -> i + Z.of_nat k = 8 ->
    Z.of_nat (length buf0) = BUF_SIZE ->
    exists n,
      (n <= k)%nat
      /\ wrapped (ReadUvarint_loop k i x s
                    (mkReader (src : BytesReader) buf0)).2
         = drop n src.
Proof.
  induction k as [|k IH]; intros i x s src buf0 Hi Hik Hbuf.
  - exists 0%nat. split; [lia | reflexivity].
  - destruct src as [|b rest].
    + rewrite ReadUvarint_loop_end_of_stream by (lia || exact Hbuf).
      exists 0%nat. split; [lia | reflexivity].
    + rewrite (ReadUvarint_loop_step k i x s _ _ _ _
                 (wf_mkReader _ _ Hbuf) ltac:(lia) (BytesReader_Read_one _ _)).
      destruct (byte_val b <? 0x80).
      * exists 1%nat. split; [lia | reflexivity].
      * destruct (IH (i + 1)
                    (Z.lor x (u64 (Z.shiftl (Z.land (byte_val b) 0x7f) s)))
                    (s + 7) rest (list_inserts (Z.to_nat i) [b] buf0))
          as (n & Hn & Hdrop); try lia.
        { apply inserts_keeps_size. exact Hbuf. }
        exists (S n). split; [lia | exact Hdrop].
Qed.

(** X17. [ReadUvarint] never reads past the eighth byte: on a stream in
    memory, whatever the bytes are and whatever it returns, it takes a
    front of at most eight bytes from the stream and leaves the rest as it
    was. *)
Theorem ReadUvarint_takes_at_most_eight_bytes (r : Reader BytesReader) :
  wf_reader r ->
  exists n,
    (n <= 8)%nat
    /\ wrapped (ReadUvarint r).2 = drop n (wrapped r)
    /\ wf_reader (ReadUvarint r).2.
Proof.
  intros Hwf. destruct r as [src buf0].
  destruct (ReadUvarint_loop_takes 8 0 0 0 src buf0) as (n & Hn & Hdrop);
    try lia; [exact Hwf|].
  exists n. split; [exact Hn|]. split; [exact Hdrop|].
  apply ReadUvarint_outcome. exact Hwf.
Qed.

Lemma ReadUvarint_takes_at_most_eight_bytes_witness :
  exists n,
    (n <= 8)%nat
    /\ wrapped (ReadUvarint (NewReader stream_oversize)).2
       = drop n (wrapped (NewReader stream_oversize)).
Proof.
  destruct (ReadUvarint_takes_at_most_eight_bytes (NewReader stream_oversize)
              (NewReader_wf _)) as (n & Hn & Hdrop & _).
  exists n. split; [exact Hn | exact Hdrop].
Defined.

(** * The end-to-end test driver *)

Lemma string_eqb_eq (s t : list byte) : string_eqb s t = true <-> s = t.
Proof.
  revert t. induction s as [|a s IH]; intros [|b t]; cbn [string_eqb];
    try (split; [discriminate | discriminate]); [tauto|].
  rewrite andb_true_iff, IH. split.
  - intros [Hab ->]. apply Byte.byte_dec_bl in Hab. subst. reflexivity.
  - intros [= -> ->]. split; [apply Byte.byte_dec_lb|]; reflexivity.
Qed.

(** ** [InputType] *)

(** X18. [InputType.Set] (and [UnmarshalText], which is [Set] on the text)
    accepts the one text [plain_tcp]: it then stores [InputPlainTCP] and
    returns no error; for every other text it returns the error
    [invalid input type <text>] and leaves the receiver as it was.
    [String] has a name for [InputPlainTCP] only and panics on every other
    value; the name it gives, [tcp_plain], is not a text [Set] accepts. *)
Theorem InputType_Set_accepts_plain_tcp_only (a : InputType) (value : list byte) :
  let plain_tcp := ["p"; "l"; "a"; "i"; "n"; "_"; "t"; "c"; "p"]%byte in
  ((InputType_Set a value).2 = None <-> value = plain_tcp)
  /\ InputType_Set a plain_tcp = (InputPlainTCP, None)
  /\ (value <> plain_tcp ->
      InputType_Set a value = (a, Some (invalid_input_type value)))
  /\ InputType_UnmarshalText a value = InputType_Set a value
  /\ (InputType_String a <> None <-> a = InputPlainTCP)
  /\ (forall (b : InputType) (name : list byte),
        InputType_String b = Some name ->
        InputType_Set a name = (a, Some (invalid_input_type name))).
Proof.
  intros plain_tcp. unfold InputType_Set. fold plain_tcp.
  split; [|split; [|split; [|split; [|split]]]].
  - destruct (string_eqb value plain_tcp) eqn:Heq; cbn [snd].
    + apply string_eqb_eq in Heq. tauto.
    + split; [discriminate|]. intros Hv. apply string_eqb_eq in Hv. congruence.
  - reflexivity.
  - intros Hne. destruct (string_eqb value plain_tcp) eqn:Heq; [|reflexivity].
    apply string_eqb_eq in Heq. contradiction.
  - reflexivity.
  - unfold InputType_String, InputPlainTCP.
    destruct (a <? 0) eqn:Hneg.
    + apply Z.ltb_lt in Hneg. split; [congruence | lia].
    + apply Z.ltb_ge in Hneg. split.
      * intros Hsome. destruct (Z.to_nat a) as [|n] eqn:Hn; [lia|].
        exfalso. apply Hsome. reflexivity.
      * intros ->. discriminate.
  - intros b name Hname. unfold InputType_String in Hname.
    destruct (b <? 0); [discriminate|].
    destruct (Z.to_nat b) as [|n]; [|discriminate].
    injection Hname as <-. reflexivity.
Qed.

Lemma InputType_Set_accepts_plain_tcp_only_witness :
  InputType_String InputPlainTCP
  = Some ["t"; "c"; "p"; "_"; "p"; "l"; "a"; "i"; "n"]%byte
  /\ InputType_Set InputPlainTCP ["t"; "c"; "p"; "_"; "p"; "l"; "a"; "i"; "n"]%byte
     = (InputPlainTCP,
        Some (invalid_input_type
                ["t"; "c"; "p"; "_"; "p"; "l"; "a"; "i"; "n"]%byte)).
Proof.
  destruct (InputType_Set_accepts_plain_tcp_only InputPlainTCP [])
    as (_ & _ & _ & _ & _ & Hname).
  split; [reflexivity|].
  exact (Hname InputPlainTCP _ eq_refl).
Defined.

(** ** [verifyOut] *)

Lemma strings_Split_nonempty (s : list byte) (sep : byte) :
  strings_Split s sep <> [].
Proof.
  destruct s as [|c t]; cbn [strings_Split]; [discriminate|].
  destruct (Byte.eqb c sep); [discriminate|].
  destruct (strings_Split t sep); discriminate.
Qed.

(** The pieces hold no separator, and no byte that is not in the string. *)
Lemma strings_Split_pieces (s : list byte) (sep : byte) :
  Forall (fun piece => (sep ∉ piece) /\ forall c, c ∈ piece -> c ∈ s)
    (strings_Split s sep).
Proof.
  induction s as [|c t IH]; cbn [strings_Split].
  - constructor; [|constructor]. split; [apply not_elem_of_nil | auto].
  - assert (Hweak : Forall (fun piece => (sep ∉ piece)
                                /\ forall c0, c0 ∈ piece -> c0 ∈ c :: t)
                      (strings_Split t sep)).
    { eapply List.Forall_impl; [|exact IH].
      intros piece [Hsep Hin]. split; [exact Hsep|].
      intros c1 Hc1. right. apply Hin. exact Hc1. }
    destruct (Byte.eqb c sep) eqn:Hc.
    + constructor; [|exact Hweak].
      split; [apply not_elem_of_nil|]. intros c1 Hc1.
      apply elem_of_nil in Hc1. contradiction.
    + apply Byte.eqb_false in Hc.
      destruct (strings_Split t sep) as [|piece pieces].
      * constructor; [|constructor]. split.
        -- intros Hin. apply list_elem_of_singleton in Hin. congruence.
        -- intros c1 Hc1. apply list_elem_of_singleton in Hc1. subst. left.
      * inversion Hweak as [|? ? [Hsep Hin] Hrest]; subst.
        constructor; [|exact Hrest]. split.
        -- intros Hmem. apply elem_of_cons in Hmem.
           destruct Hmem as [Heq | Hmem]; [congruence | contradiction].
        -- intros c1 Hc1. apply elem_of_cons in Hc1.
           destruct Hc1 as [-> | Hc1]; [left | apply Hin; exact Hc1].
Qed.

(** A string that does not end with the separator has no empty last piece. *)
Lemma strings_Split_last (s : list byte) (sep : byte) :
  s <> [] -> (forall init, s <> init ++ [sep]) ->
  forall init, strings_Split s sep <> init ++ [[]].
Proof.
  induction s as [|c t IH]; intros Hne Hlast init; [congruence|].
  destruct t as [|c' t].
  - cbn [strings_Split].
    destruct (Byte.eqb c sep) eqn:Hc.
    + apply Byte.byte_dec_bl in Hc. subst. exfalso. apply (Hlast []). reflexivity.
    + destruct init as [|x [|y init]]; cbn; intros [=].
  - assert (Hlast' : forall init0, c' :: t <> init0 ++ [sep]).
    { intros init0 Heq. apply (Hlast (c :: init0)). rewrite Heq. reflexivity. }
    specialize (IH ltac:(discriminate) Hlast').
    pose proof (strings_Split_nonempty (c' :: t) sep) as Hnonempty.
    change (strings_Split (c :: c' :: t) sep)
      with (if Byte.eqb c sep then [] :: strings_Split (c' :: t) sep
            else match strings_Split (c' :: t) sep with
                 | piece :: pieces => (c :: piece) :: pieces
                 | [] => [[c]]
                 end).
    destruct (Byte.eqb c sep).
    + destruct init as [|x init]; cbn [app]; intros Heq; injection Heq.
      * congruence.
      * intros Htail _. apply (IH init). exact Htail.
    + destruct (strings_Split (c' :: t) sep) as [|piece pieces]; [congruence|].
      destruct init as [|x init]; cbn [app]; intros Heq; injection Heq.
      * discriminate.
      * intros Htail _. apply (IH (piece :: init)). rewrite Htail. reflexivity.
Qed.

Lemma strings_TrimRight_last (s : list byte) (c : byte) :
  forall init, strings_TrimRight s c <> init ++ [c].
Proof.
  induction s as [|b t IH]; intros init; cbn [strings_TrimRight].
  - destruct init; discriminate.
  - destruct (strings_TrimRight t c) as [|x t'].
    + destruct (Byte.eqb b c) eqn:Hb.
      * destruct init; discriminate.
      * apply Byte.eqb_false in Hb.
        destruct init as [|y [|z init]]; cbn; intros [=]; congruence.
    + destruct init as [|y init]; cbn [app]; intros Heq; injection Heq.
      * discriminate.
      * intros Htail _. apply (IH init). exact Htail.
Qed.

Lemma strings_ReplaceAll_tab (s : list byte) :
  (TAB ∉ strings_ReplaceAll s TAB SPACE)
  /\ (forall init, strings_ReplaceAll s TAB SPACE = init ++ [NL] ->
        exists init', s = init' ++ [NL]).
Proof.
  unfold strings_ReplaceAll. split.
  - intros Hin. apply list_elem_of_fmap in Hin. destruct Hin as (b & Hb & _).
    destruct (Byte.eqb b TAB) eqn:Heq; [discriminate|].
    apply Byte.eqb_false in Heq. congruence.
  - intros init Heq. apply fmap_app_inv in Heq.
    destruct Heq as (l1 & l2 & _ & Hl2 & ->).
    destruct l2 as [|b [|b' l2]]; try discriminate.
    cbn in Hl2. injection Hl2 as Hb.
    exists l1. do 2 f_equal.
    destruct (Byte.eqb b TAB) eqn:Heq; [discriminate | congruence].
Qed.

(** The lines compared: none holds a newline or a tab, and the last one is
    not empty. *)
Lemma response_lines_shape (body : list byte) :
  Forall (fun line => (NL ∉ line) /\ (TAB ∉ line)) (response_lines body)
  /\ forall init, response_lines body <> init ++ [[]].
Proof.
  unfold response_lines.
  set (s := strings_ReplaceAll (strings_TrimRight body NL) TAB SPACE).
  assert (Hpieces : Forall (fun line => (NL ∉ line) /\ (TAB ∉ line))
                      (strings_Split s NL)).
  { eapply List.Forall_impl; [|apply strings_Split_pieces].
    intros piece [Hnl Hin]. split; [exact Hnl|].
    intros Htab. apply Hin in Htab.
    apply (proj1 (strings_ReplaceAll_tab (strings_TrimRight body NL))).
    exact Htab. }
  assert (Hlast : s <> [] -> forall init, strings_Split s NL <> init ++ [[]]).
  { intros Hne. apply strings_Split_last; [exact Hne|].
    intros init Heq.
    destruct (proj2 (strings_ReplaceAll_tab (strings_TrimRight body NL))
                init Heq) as (init' & Htrim).
    apply (strings_TrimRight_last body NL init'). exact Htrim. }
  destruct (strings_Split s NL) as [|s0 [|s1 rest]] eqn:Hsplit.
  - split; [constructor|]. intros init. destruct init; discriminate.
  - destruct s0 as [|c s0]; cbn [length Nat.eqb].
    + split; [constructor|]. intros init. destruct init; discriminate.
    + split; [exact Hpieces|].
      intros [|x [|y init]]; cbn; intros [=].
  - split; [exact Hpieces|]. apply Hlast.
    intros Hs. rewrite Hs in Hsplit. discriminate.
Qed.

(** The loop of [verifyOut] from the index [i] on: it ends without a panic,
    and it adds no message exactly when the lines and the expected lines
    are the same from [i] on. *)
Lemma verifyOut_loop_spec (ss output : list (list byte)) (k : nat) :
  forall (i : nat) (errs : list (list byte)),
    (i + k = Nat.max (length ss) (length output))%nat ->
    exists extra,
      verifyOut_loop k i ss output errs = Some (errs ++ extra)
      /\ (extra = [] <-> drop i ss = drop i output).
Proof.
  induction k as [|k IH]; intros i errs Hik.
  - exists []. cbn [verifyOut_loop]. rewrite app_nil_r.
    split; [reflexivity|].
    rewrite !drop_ge by lia. tauto.
  - cbn [verifyOut_loop].
    destruct (length ss <=? i)%nat eqn:Hss.
    + apply Nat.leb_le in Hss.
      destruct (lookup_lt_is_Some_2 output i ltac:(lia)) as [o Ho].
      rewrite Ho.
      destruct (IH (S i) (errs ++ [Sprintf_line "-" i o]) ltac:(lia))
        as (extra & Hloop & _).
      exists (Sprintf_line "-" i o :: extra).
      split; [rewrite Hloop, <- app_assoc; reflexivity|].
      rewrite (drop_ge ss) by lia. rewrite (drop_S _ _ _ Ho).
      split; discriminate.
    + apply Nat.leb_gt in Hss.
      destruct (lookup_lt_is_Some_2 ss i Hss) as [s Hs].
      destruct (length output <=? i)%nat eqn:Hout.
      * apply Nat.leb_le in Hout. rewrite Hs.
        destruct (IH (S i) (errs ++ [Sprintf_line "+" i s]) ltac:(lia))
          as (extra & Hloop & _).
        exists (Sprintf_line "+" i s :: extra).
        split; [rewrite Hloop, <- app_assoc; reflexivity|].
        rewrite (drop_ge output) by lia. rewrite (drop_S _ _ _ Hs).
        split; discriminate.
      * apply Nat.leb_gt in Hout.
        destruct (lookup_lt_is_Some_2 output i Hout) as [o Ho].
        rewrite Hs, Ho.
        rewrite (drop_S _ _ _ Hs), (drop_S _ _ _ Ho).
        destruct (string_eqb s o) eqn:Heq; cbn [negb].
        -- apply string_eqb_eq in Heq. subst o.
           destruct (IH (S i) errs ltac:(lia)) as (extra & Hloop & Hiff).
           exists extra. split; [exact Hloop|].
           rewrite Hiff. split; [congruence|]. intros [= Htail]. exact Htail.
        -- destruct (IH (S i)
                       ((errs ++ [Sprintf_line "-" i o])
                        ++ [Sprintf_line "+" i s]) ltac:(lia))
             as (extra & Hloop & _).
           exists (Sprintf_line "-" i o :: Sprintf_line "+" i s :: extra).
           split; [rewrite Hloop, <- !app_assoc; reflexivity|].
           split; [discriminate|].
           intros [= Hso _]. subst o.
           assert (Htrue : string_eqb s s = true)
             by (apply string_eqb_eq; reflexivity).
           congruence.
Qed.

Section VerifyOutProperties.
Variable tests_Max : Z -> Z -> Z.
Hypothesis tests_Max_spec : forall a b, tests_Max a b = Z.max a b.

Lemma verifyOut_response_200 (Status body : list byte) (verify : Verify) :
  exists errs,
    verifyOut tests_Max (Response 200 Status body) verify = Some errs
    /\ (errs = [] <-> response_lines body = Output verify).
Proof.
  unfold verifyOut. cbn [Z.eqb Pos.eqb negb].
  fold (response_lines body). rewrite tests_Max_spec.
  destruct (verifyOut_loop_spec (response_lines body) (Output verify)
              (Z.to_nat (Z.max (Z.of_nat (length (response_lines body)))
                               (Z.of_nat (length (Output verify)))))
              0 []) as (extra & Hloop & Hiff); [lia|].
  exists extra. split; [exact Hloop|]. exact Hiff.
Qed.


(** X20. Expected lines that [verifyOut] can never accept: when it returns
    no message, no expected line holds a tab or a newline, and the last
    expected line is not empty. So an expectation with a tab in it, or one
    that ends with an empty line (the single empty line included), gives a
    message whatever the response is. *)
Theorem verifyOut_accepts_no_tab_no_empty_last_line
    (exchange : http_exchange) (verify : Verify) :
  verifyOut tests_Max exchange verify = Some [] ->
  Forall (fun line => (NL ∉ line) /\ (TAB ∉ line)) (Output verify)
  /\ forall init, Output verify <> init ++ [[]].
Proof.
  intros Hok.
  destruct exchange as [msg | msg | StatusCode Status body];
    try discriminate.
  destruct (Z.eq_dec StatusCode 200) as [-> | Hne].
  - destruct (verifyOut_response_200 Status body verify)
      as (errs & Herrs & Hiff).
    rewrite Herrs in Hok. injection Hok as ->.
    rewrite <- (proj1 Hiff eq_refl). apply response_lines_shape.
  - unfold verifyOut in Hok.
    replace (StatusCode =? 200) with false in Hok
      by (symmetry; apply Z.eqb_neq; exact Hne).
    discriminate.
Qed.

End VerifyOutProperties.


Lemma verifyOut_accepts_no_tab_no_empty_last_line_witness :
  verifyOut Z.max
    (Response 200 [] ["a"; x09; "b"; x0a]%byte)
    (mkVerify [] [["a"; " "; "b"]]%byte)
  = Some []
  /\ Forall (fun line => (NL ∉ line) /\ (TAB ∉ line)) [["a"; " "; "b"]]%byte.
Proof.
  assert (Hok : verifyOut Z.max
                  (Response 200 [] ["a"; x09; "b"; x0a]%byte)
                  (mkVerify [] [["a"; " "; "b"]]%byte)
                = Some []) by reflexivity.
  split; [exact Hok|].
  exact (proj1 (verifyOut_accepts_no_tab_no_empty_last_line Z.max
                  (fun a b => eq_refl) _ _ Hok)).
Defined.
